(** * shadcn-modal-manager: the store reducer and the lifecycle coordinator

    A shallow embedding of [packages/shadcn-modal-manager/src/core.ts],
    [api.ts] and the coordinator-facing parts of [hooks.ts] and [hoc.tsx].

    Modelling conventions.
    - A JavaScript object used as a dictionary ([ModalStore], the callback
      ledgers, [ALREADY_MOUNTED], one modal's state object) is a [gmap] over
      its own string keys.  The reducer's reads go on to [Object.prototype]
      when there is no own key ([inherited], [store_get],
      [already_mounted]).  The coordinator's functions read the ledgers by
      own key, as the code does for an identifier that is not a name of
      [Object.prototype]; module [Proto] gives [closeModal], [removeModal]
      and [getState] for every identifier.
    - A promise is an index into a table of cells; a cell is pending ([None])
      or fulfilled with a value ([Some v]).  No code path of the library ever
      calls a deferred's [reject].
    - The module-level variables of [core.ts] and [api.ts] are the fields of
      one [World] record that every operation threads; an operation that can
      throw returns [Throw] together with the world as it was left at the
      point of the throw. *)

From stdpp Require Import gmap strings list fin_maps pretty.

Local Open Scope string_scope.
Local Open Scope list_scope.

(* ================================================================== *)
(** ** JavaScript values *)
(* ================================================================== *)

#[warnings="-register-all"]
Inductive value :=
  | VUndefined
  | VBool (b : bool)
  | VNum (n : Z)
  | VStr (s : string)
  | VObj (o : gmap string value).

(** [!!v] *)
Definition truthy (v : value) : bool :=
  match v with
  | VUndefined => false
  | VBool b => b
  | VNum n => negb (n =? 0)%Z
  | VStr s => negb (String.eqb s "")
  | VObj _ => true
  end.

(** [o?.k] on a possibly missing object, then [!!]. *)
Definition truthy_field (o : option (gmap string value)) (k : string) : bool :=
  match o with
  | Some e => match e !! k with Some v => truthy v | None => false end
  | None => false
  end.

(** [b ?? undefined] for an optional boolean option of a config object. *)
Definition opt_bool (b : option bool) : value :=
  match b with Some x => VBool x | None => VUndefined end.

(* ================================================================== *)
(** ** core.ts: store, actions, reducer *)
(* ================================================================== *)

(** [ModalState]: the per-identifier object ([modalId], [data], [isOpen],
    [delayOpen], [keepMounted], and whatever [set-flags] merges in). *)
Abbreviation ModalState := (gmap string value).

(** [ModalStore]: identifier -> [ModalState]. *)
Abbreviation ModalStore := (gmap string (gmap string value)).

Definition initialState : ModalStore := ∅.

Record Payload := mkPayload {
  modalId : string;
  data : value;                          (* [data?], [undefined] when absent *)
  flags : option (gmap string value);    (* [flags?] *)
}.

Record ModalAction := mkAction {
  type : string;
  payload : Payload;
}.

Definition T_SHOW : string := "shadcn-modal-manager/show".
Definition T_HIDE : string := "shadcn-modal-manager/hide".
Definition T_REMOVE : string := "shadcn-modal-manager/remove".
Definition T_SET_FLAGS : string := "shadcn-modal-manager/set-flags".

Module actions.
Definition open (modalId : string) (data : value) : ModalAction :=
  mkAction T_SHOW (mkPayload modalId data None).
Definition close (modalId : string) : ModalAction :=
  mkAction T_HIDE (mkPayload modalId VUndefined None).
Definition remove (modalId : string) : ModalAction :=
  mkAction T_REMOVE (mkPayload modalId VUndefined None).
Definition setFlags (modalId : string) (flags : gmap string value) : ModalAction :=
  mkAction T_SET_FLAGS (mkPayload modalId VUndefined (Some flags)).
End actions.

(** *** Property reads on a plain object

    [initialState], [ALREADY_MOUNTED] and every store the reducer returns
    are plain objects: a read [obj[key]] that finds no own property goes on
    to [Object.prototype].  For the names below it finds a member there (a
    function, or for [__proto__] the prototype object itself): a value that
    is truthy and not [undefined], and that a spread copies no property
    from. *)
Definition Object_prototype_names : list string :=
  ["constructor"; "__defineGetter__"; "__defineSetter__"; "hasOwnProperty";
   "__lookupGetter__"; "__lookupSetter__"; "isPrototypeOf"; "propertyIsEnumerable";
   "toString"; "valueOf"; "__proto__"; "toLocaleString"].

Definition inherited (key : string) : bool :=
  bool_decide (key ∈ Object_prototype_names).

(** [!!ALREADY_MOUNTED[modalId]].  The table's own values are [true]; an
    assignment under the key [__proto__] creates no own property, and the
    read yields the prototype object whatever was assigned. *)
Definition already_mounted (am : gmap string bool) (modalId : string) : bool :=
  match am !! modalId with Some b => b | None => inherited modalId end.

(** [state[modalId]] as the guards [if (!modalState)] and the spreads
    [{ ...modalState }] of the reducer see it: the own entry, or, for a name
    of [Object.prototype], a truthy value without properties to copy. *)
Definition store_get (state : gmap string (gmap string value)) (modalId : string)
    : option (gmap string value) :=
  match state !! modalId with
  | Some e => Some e
  | None => if inherited modalId then Some ∅ else None
  end.

(** [{ ...prior, modalId, data, isOpen, delayOpen }] of the [show] branch. *)
Definition show_entry (am : gmap string bool) (prior : option (gmap string value))
    (modalId : string) (data : value) : gmap string value :=
  <["delayOpen" := VBool (negb (already_mounted am modalId))]>
    (<["isOpen" := VBool (already_mounted am modalId)]>
      (<["data" := data]>
        (<["modalId" := VStr modalId]> (default ∅ prior)))).

(** [{ ...modalState, isOpen: false }] *)
Definition hide_entry (modalState : gmap string value) : gmap string value :=
  <["isOpen" := VBool false]> modalState.

(** [{ ...existingState, ...flags }]: later spreads win. *)
Definition flags_entry (existingState : gmap string value)
    (flags : option (gmap string value)) : gmap string value :=
  default ∅ flags ∪ existingState.

(** [reducer], on store values.  [am] is the [ALREADY_MOUNTED] table the
    function reads from module scope. *)
Definition reducer (am : gmap string bool) (state : ModalStore)
    (action : ModalAction) : ModalStore :=
  let id := modalId (payload action) in
  if String.eqb (type action) T_SHOW then
    <[id := show_entry am (state !! id) id (data (payload action))]> state
  else if String.eqb (type action) T_HIDE then
    match store_get state id with
    | None => state
    | Some modalState => <[id := hide_entry modalState]> state
    end
  else if String.eqb (type action) T_REMOVE then
    delete id state
  else if String.eqb (type action) T_SET_FLAGS then
    match store_get state id with
    | None => state
    | Some existingState =>
        <[id := flags_entry existingState (flags (payload action))]> state
    end
  else state.

(** *** The same reducer over an object heap

    To speak about references the objects are placed in a heap: a store
    object maps identifiers to the addresses of modal-state objects.  An
    object literal allocates; nothing in [reducer] assigns to a property of
    an existing object except [delete newState[modalId]], whose target is
    the copy made one line earlier. *)

Inductive hobj :=
  | HStore (m : gmap string nat)
  | HEntry (e : gmap string value).

Definition store_at (h : list hobj) (l : nat) : gmap string nat :=
  match h !! l with Some (HStore m) => m | _ => ∅ end.

Definition entry_at (h : list hobj) (l : nat) : option (gmap string value) :=
  match h !! l with Some (HEntry e) => Some e | _ => None end.

(** [state[modalId]], dereferenced; see [store_get]. *)
Definition entry_of (h : list hobj) (state : nat) (id : string)
    : option (gmap string value) :=
  match store_at h state !! id with
  | Some l => entry_at h l
  | None => if inherited id then Some ∅ else None
  end.

Definition alloc (h : list hobj) (o : hobj) : list hobj * nat :=
  ((h ++ [o])%list, length h).

Definition reducerH (am : gmap string bool) (h : list hobj) (state : nat)
    (action : ModalAction) : list hobj * nat :=
  let id := modalId (payload action) in
  if String.eqb (type action) T_SHOW then
    let '(h1, e) :=
      alloc h (HEntry (show_entry am (entry_of h state id) id (data (payload action)))) in
    alloc h1 (HStore (<[id := e]> (store_at h state)))
  else if String.eqb (type action) T_HIDE then
    match entry_of h state id with
    | None => (h, state)
    | Some modalState =>
        let '(h1, e) := alloc h (HEntry (hide_entry modalState)) in
        alloc h1 (HStore (<[id := e]> (store_at h state)))
    end
  else if String.eqb (type action) T_REMOVE then
    let '(h1, newState) := alloc h (HStore (store_at h state)) in
    (<[newState := HStore (delete id (store_at h1 newState))]> h1, newState)
  else if String.eqb (type action) T_SET_FLAGS then
    match entry_of h state id with
    | None => (h, state)
    | Some existingState =>
        let '(h1, e) :=
          alloc h (HEntry (flags_entry existingState (flags (payload action)))) in
        alloc h1 (HStore (<[id := e]> (store_at h state)))
    end
  else (h, state).

(** The store value a reference denotes. *)
Definition denote (h : list hobj) (state : nat) : ModalStore :=
  omap (entry_at h) (store_at h state).

(** A store object is well formed when each of its fields points at a
    modal-state object. *)
Definition store_wf (h : list hobj) (state : nat) : Prop :=
  (∃ m, h !! state = Some (HStore m)) ∧
  ∀ id l, store_at h state !! id = Some l → is_Some (entry_at h l).

(** The transitions that the source answers with [return state]: [hide]
    and [set-flags] when [state[modalId]] is falsy, and unknown action
    types. *)
Definition returns_input (h : list hobj) (state : nat) (action : ModalAction) : bool :=
  if String.eqb (type action) T_SHOW then false
  else if String.eqb (type action) T_HIDE then
    bool_decide (entry_of h state (modalId (payload action)) = None)
  else if String.eqb (type action) T_REMOVE then false
  else if String.eqb (type action) T_SET_FLAGS then
    bool_decide (entry_of h state (modalId (payload action)) = None)
  else true.

(** The transitions that change or re-create an entry: [show], [hide] and
    [set-flags] past their guard, and [remove] of an identifier the store
    owns. *)
Definition builds_store (h : list hobj) (state : nat) (action : ModalAction) : bool :=
  if String.eqb (type action) T_SHOW then true
  else if String.eqb (type action) T_HIDE then
    bool_decide (is_Some (entry_of h state (modalId (payload action))))
  else if String.eqb (type action) T_REMOVE then
    bool_decide (is_Some (store_at h state !! modalId (payload action)))
  else if String.eqb (type action) T_SET_FLAGS then
    bool_decide (is_Some (entry_of h state (modalId (payload action))))
  else false.

(** *** Identifier generation *)

(** [uidSeed++] on an IEEE-754 double holding a natural number: exact below
    [2^53]; at [2^53] the sum [2^53 + 1] rounds back to [2^53]. *)
Definition MAX_EXACT : N := 2 ^ 53.

Definition js_incr (n : N) : N :=
  if (n <? MAX_EXACT)%N then (n + 1)%N else n.

(** [`_modal_${n}`] *)
Definition uid_string (n : N) : string := "_modal_" +:+ pretty n.

(* ================================================================== *)
(** ** Module state of core.ts and api.ts *)
(* ================================================================== *)

(** [ModalLifecycleState] *)
Inductive ModalLifecycleState := open | closing | closed.

#[global] Instance ModalLifecycleState_eq_dec : EqDecision ModalLifecycleState.
Proof. solve_decision. Defined.

(** What [setDispatch] has installed: the initial function that throws, or
    the provider's [dispatch], which runs [reducer] on the store. *)
Inductive Dispatch := NoProvider | ProviderDispatch.

(** A [MODAL_REGISTRY] entry: the component (by identity) and static props. *)
Record ModalRegistryEntry := mkEntry {
  comp : nat;
  props : option (gmap string value);
}.

(** The first argument of [openModal], [closeModal], [removeModal]:
    a string identifier or a component (by identity). *)
Inductive Target :=
  | ById (id : string)
  | ByComponent (c : nat).

Record World := mkWorld {
  (* provider *)
  store : ModalStore;
  dispatchFn : Dispatch;
  dispatched : list ModalAction;     (* every action handed to [dispatchFn] *)
  (* core.ts *)
  MODAL_REGISTRY : gmap string ModalRegistryEntry;
  ALREADY_MOUNTED : gmap string bool;
  symModalId : gmap nat string;      (* the [symModalId] tag of a component *)
  uidSeed : N;
  modalCallbacks : gmap string nat;
  hideModalCallbacks : gmap string nat;
  (* api.ts *)
  openedCallbacks : gmap string nat;
  beforeClosedCallbacks : gmap string nat;
  modalStates : gmap string ModalLifecycleState;
  closedPromises : gmap string nat;
  (* runtime *)
  promises : list (option value);    (* promise cells *)
  timers : list string;              (* pending [setTimeout] callbacks of [markClosed] *)
}.

Definition initialWorld : World :=
  mkWorld initialState NoProvider [] ∅ ∅ ∅ 0%N ∅ ∅ ∅ ∅ ∅ ∅ [] [].

Definition set_store (f : ModalStore → ModalStore) (w : World) : World :=
  mkWorld (f (store w)) (dispatchFn w) (dispatched w) (MODAL_REGISTRY w)
    (ALREADY_MOUNTED w) (symModalId w) (uidSeed w) (modalCallbacks w)
    (hideModalCallbacks w) (openedCallbacks w) (beforeClosedCallbacks w)
    (modalStates w) (closedPromises w) (promises w) (timers w).
Definition set_dispatchFn (f : Dispatch → Dispatch) (w : World) : World :=
  mkWorld (store w) (f (dispatchFn w)) (dispatched w) (MODAL_REGISTRY w)
    (ALREADY_MOUNTED w) (symModalId w) (uidSeed w) (modalCallbacks w)
    (hideModalCallbacks w) (openedCallbacks w) (beforeClosedCallbacks w)
    (modalStates w) (closedPromises w) (promises w) (timers w).
Definition set_dispatched (f : list ModalAction → list ModalAction) (w : World) : World :=
  mkWorld (store w) (dispatchFn w) (f (dispatched w)) (MODAL_REGISTRY w)
    (ALREADY_MOUNTED w) (symModalId w) (uidSeed w) (modalCallbacks w)
    (hideModalCallbacks w) (openedCallbacks w) (beforeClosedCallbacks w)
    (modalStates w) (closedPromises w) (promises w) (timers w).
Definition set_MODAL_REGISTRY
    (f : gmap string ModalRegistryEntry → gmap string ModalRegistryEntry)
    (w : World) : World :=
  mkWorld (store w) (dispatchFn w) (dispatched w) (f (MODAL_REGISTRY w))
    (ALREADY_MOUNTED w) (symModalId w) (uidSeed w) (modalCallbacks w)
    (hideModalCallbacks w) (openedCallbacks w) (beforeClosedCallbacks w)
    (modalStates w) (closedPromises w) (promises w) (timers w).
Definition set_ALREADY_MOUNTED (f : gmap string bool → gmap string bool)
    (w : World) : World :=
  mkWorld (store w) (dispatchFn w) (dispatched w) (MODAL_REGISTRY w)
    (f (ALREADY_MOUNTED w)) (symModalId w) (uidSeed w) (modalCallbacks w)
    (hideModalCallbacks w) (openedCallbacks w) (beforeClosedCallbacks w)
    (modalStates w) (closedPromises w) (promises w) (timers w).
Definition set_symModalId (f : gmap nat string → gmap nat string) (w : World) : World :=
  mkWorld (store w) (dispatchFn w) (dispatched w) (MODAL_REGISTRY w)
    (ALREADY_MOUNTED w) (f (symModalId w)) (uidSeed w) (modalCallbacks w)
    (hideModalCallbacks w) (openedCallbacks w) (beforeClosedCallbacks w)
    (modalStates w) (closedPromises w) (promises w) (timers w).
Definition set_uidSeed (f : N → N) (w : World) : World :=
  mkWorld (store w) (dispatchFn w) (dispatched w) (MODAL_REGISTRY w)
    (ALREADY_MOUNTED w) (symModalId w) (f (uidSeed w)) (modalCallbacks w)
    (hideModalCallbacks w) (openedCallbacks w) (beforeClosedCallbacks w)
    (modalStates w) (closedPromises w) (promises w) (timers w).
Definition set_modalCallbacks (f : gmap string nat → gmap string nat) (w : World) : World :=
  mkWorld (store w) (dispatchFn w) (dispatched w) (MODAL_REGISTRY w)
    (ALREADY_MOUNTED w) (symModalId w) (uidSeed w) (f (modalCallbacks w))
    (hideModalCallbacks w) (openedCallbacks w) (beforeClosedCallbacks w)
    (modalStates w) (closedPromises w) (promises w) (timers w).
Definition set_hideModalCallbacks (f : gmap string nat → gmap string nat) (w : World) : World :=
  mkWorld (store w) (dispatchFn w) (dispatched w) (MODAL_REGISTRY w)
    (ALREADY_MOUNTED w) (symModalId w) (uidSeed w) (modalCallbacks w)
    (f (hideModalCallbacks w)) (openedCallbacks w) (beforeClosedCallbacks w)
    (modalStates w) (closedPromises w) (promises w) (timers w).
Definition set_openedCallbacks (f : gmap string nat → gmap string nat) (w : World) : World :=
  mkWorld (store w) (dispatchFn w) (dispatched w) (MODAL_REGISTRY w)
    (ALREADY_MOUNTED w) (symModalId w) (uidSeed w) (modalCallbacks w)
    (hideModalCallbacks w) (f (openedCallbacks w)) (beforeClosedCallbacks w)
    (modalStates w) (closedPromises w) (promises w) (timers w).
Definition set_beforeClosedCallbacks (f : gmap string nat → gmap string nat) (w : World) : World :=
  mkWorld (store w) (dispatchFn w) (dispatched w) (MODAL_REGISTRY w)
    (ALREADY_MOUNTED w) (symModalId w) (uidSeed w) (modalCallbacks w)
    (hideModalCallbacks w) (openedCallbacks w) (f (beforeClosedCallbacks w))
    (modalStates w) (closedPromises w) (promises w) (timers w).
Definition set_modalStates
    (f : gmap string ModalLifecycleState → gmap string ModalLifecycleState)
    (w : World) : World :=
  mkWorld (store w) (dispatchFn w) (dispatched w) (MODAL_REGISTRY w)
    (ALREADY_MOUNTED w) (symModalId w) (uidSeed w) (modalCallbacks w)
    (hideModalCallbacks w) (openedCallbacks w) (beforeClosedCallbacks w)
    (f (modalStates w)) (closedPromises w) (promises w) (timers w).
Definition set_closedPromises (f : gmap string nat → gmap string nat) (w : World) : World :=
  mkWorld (store w) (dispatchFn w) (dispatched w) (MODAL_REGISTRY w)
    (ALREADY_MOUNTED w) (symModalId w) (uidSeed w) (modalCallbacks w)
    (hideModalCallbacks w) (openedCallbacks w) (beforeClosedCallbacks w)
    (modalStates w) (f (closedPromises w)) (promises w) (timers w).
Definition set_promises (f : list (option value) → list (option value)) (w : World) : World :=
  mkWorld (store w) (dispatchFn w) (dispatched w) (MODAL_REGISTRY w)
    (ALREADY_MOUNTED w) (symModalId w) (uidSeed w) (modalCallbacks w)
    (hideModalCallbacks w) (openedCallbacks w) (beforeClosedCallbacks w)
    (modalStates w) (closedPromises w) (f (promises w)) (timers w).
Definition set_timers (f : list string → list string) (w : World) : World :=
  mkWorld (store w) (dispatchFn w) (dispatched w) (MODAL_REGISTRY w)
    (ALREADY_MOUNTED w) (symModalId w) (uidSeed w) (modalCallbacks w)
    (hideModalCallbacks w) (openedCallbacks w) (beforeClosedCallbacks w)
    (modalStates w) (closedPromises w) (promises w) (f (timers w)).

(* ================================================================== *)
(** ** The monad of operations: world passing with exceptions *)
(* ================================================================== *)

Inductive Res (A : Type) :=
  | Ok (a : A)
  | Throw (msg : string).
Arguments Ok {A} a.
Arguments Throw {A} msg.

Definition M (A : Type) : Type := World → Res A * World.

Definition ret {A} (a : A) : M A := λ w, (Ok a, w).

Definition bind {A B} (m : M A) (k : A → M B) : M B := λ w,
  match m w with
  | (Ok a, w1) => k a w1
  | (Throw msg, w1) => (Throw msg, w1)
  end.

Definition throw {A} (msg : string) : M A := λ w, (Throw msg, w).
Definition gets {A} (f : World → A) : M A := λ w, (Ok (f w), w).
Definition modify (f : World → World) : M unit := λ w, (Ok tt, f w).

Declare Scope M_scope.
Delimit Scope M_scope with M.
Notation "'let*' x := m 'in' k" := (bind m (λ x, k))
  (at level 10, x name, m at level 100, k at level 200) : M_scope.
Notation "m ;;; k" := (bind m (λ _, k))
  (at level 100, k at level 200, right associativity) : M_scope.
Local Open Scope M_scope.

(** The world an operation leaves behind, whatever its outcome. *)
Definition exec {A} (m : M A) (w : World) : World := snd (m w).
(** Whether the operation returned normally. *)
Definition returns {A} (m : M A) (w : World) : bool :=
  match fst (m w) with Ok _ => true | Throw _ => false end.

(** [for (const x of xs) body(x)] *)
Fixpoint for_each {A} (xs : list A) (body : A → M unit) : M unit :=
  match xs with
  | [] => ret tt
  | x :: rest => body x ;;; for_each rest body
  end.

(* ================================================================== *)
(** ** Promises *)
(* ================================================================== *)

(** [createDeferredPromise]: a new pending cell.  The deferred's [resolve]
    and [promise] both designate that cell. *)
Definition createDeferredPromise : M nat := λ w,
  (Ok (length (promises w)), set_promises (λ ps, (ps ++ [None])%list) w).

(** [Promise.resolve(v)]: a new cell, already fulfilled. *)
Definition Promise_resolve (v : value) : M nat := λ w,
  (Ok (length (promises w)), set_promises (λ ps, (ps ++ [Some v])%list) w).

(** Calling a deferred's [resolve]: settles a pending cell, and does nothing
    to a settled one. *)
Definition resolve_cell (p : nat) (v : value) (ps : list (option value))
    : list (option value) :=
  match ps !! p with
  | Some None => <[p := Some v]> ps
  | _ => ps
  end.

Definition resolve (p : nat) (v : value) : M unit :=
  modify (set_promises (resolve_cell p v)).

(** [ledger[modalId]?.resolve(v)] *)
Definition resolve_in (ledger : World → gmap string nat) (id : string)
    (v : value) : M unit :=
  let* d := gets (λ w, ledger w !! id) in
  match d with
  | Some p => resolve p v
  | None => ret tt
  end.

(** The value a promise is fulfilled with, if it is. *)
Definition settled_with (w : World) (p : nat) : option value :=
  promises w !! p ≫= id.

Definition is_pending (w : World) (p : nat) : Prop := promises w !! p = Some None.


(* ================================================================== *)
(** ** core.ts: dispatch, identifiers, registry *)
(* ================================================================== *)

(** [getDispatch()(action)].  Before a provider has called [setDispatch]
    the installed function throws; afterwards the action is recorded and
    reduced into the store.  The reduction is placed at the dispatch, with
    the [ALREADY_MOUNTED] of that moment, as for a store handed to
    [ModalProvider] through its [dispatch] and [modals] props.  The
    provider's own [useReducer] reduces at the next render instead: the
    two agree when nothing writes [ALREADY_MOUNTED] in between. *)
Definition dispatch (action : ModalAction) : M unit := λ w,
  match dispatchFn w with
  | NoProvider =>
      (Throw "No dispatch method detected. Did you wrap your app with ModalProvider?", w)
  | ProviderDispatch =>
      (Ok tt,
       set_dispatched (λ l, (l ++ [action])%list)
         (set_store (λ s, reducer (ALREADY_MOUNTED w) s action) w))
  end.

(** The provider's [setDispatch(dispatch)] on render. *)
Definition setDispatch : M unit := modify (set_dispatchFn (λ _, ProviderDispatch)).

Definition resetUidSeed : M unit := modify (set_uidSeed (λ _, 0%N)).

(** [getUid]: [`_modal_${uidSeed++}`] *)
Definition getUid : M string :=
  let* n := gets uidSeed in
  modify (set_uidSeed js_incr) ;;;
  ret (uid_string n).

Definition getModalId (modal : Target) : M string :=
  match modal with
  | ById s => ret s
  | ByComponent c =>
      let* tag := gets (λ w, symModalId w !! c) in
      match tag with
      | Some s => ret s
      | None =>
          let* s := getUid in
          modify (set_symModalId <[c := s]>) ;;;
          ret s
      end
  end.

Definition register (id : string) (c : nat) (p : option (gmap string value)) : M unit :=
  modify (set_MODAL_REGISTRY (λ r,
    match r !! id with
    | Some e => <[id := mkEntry (comp e) p]> r
    | None => <[id := mkEntry c p]> r
    end)).

Definition unregister (id : string) : M unit :=
  modify (set_MODAL_REGISTRY (delete id)).

Definition cleanupCallbacks (modalId : string) : M unit :=
  modify (set_modalCallbacks (delete modalId)) ;;;
  modify (set_hideModalCallbacks (delete modalId)).

Definition cleanupAllCallbacks : M unit :=
  modify (set_modalCallbacks (λ _, ∅)) ;;;
  modify (set_hideModalCallbacks (λ _, ∅)).

(* ================================================================== *)
(** ** api.ts: the lifecycle coordinator *)
(* ================================================================== *)

Definition cleanupModal (modalId : string) : M unit :=
  modify (set_modalCallbacks (delete modalId)) ;;;
  modify (set_hideModalCallbacks (delete modalId)) ;;;
  modify (set_openedCallbacks (delete modalId)) ;;;
  modify (set_beforeClosedCallbacks (delete modalId)) ;;;
  modify (set_modalStates (delete modalId)) ;;;
  modify (set_closedPromises (delete modalId)).

Definition all_ledger_ids (w : World) : list string :=
  elements (dom (modalCallbacks w) ∪ dom (hideModalCallbacks w)
            ∪ dom (openedCallbacks w) ∪ dom (beforeClosedCallbacks w)
            ∪ dom (modalStates w) ∪ dom (closedPromises w) : gset string).

Definition cleanupAllModals : M unit :=
  let* allIds := gets all_ledger_ids in
  for_each allIds cleanupModal.

(** "Resolve open promise with undefined when closing directly" *)
Definition resolve_open_promise (modalId : string) : M unit :=
  let* cb := gets (λ w, modalCallbacks w !! modalId) in
  match cb with
  | Some p => resolve p VUndefined ;;; modify (set_modalCallbacks (delete modalId))
  | None => ret tt
  end.

(** "Create close promise if it doesn't exist", and
    [hideModalCallbacks[modalId].promise] *)
Definition close_promise (modalId : string) : M nat :=
  let* h := gets (λ w, hideModalCallbacks w !! modalId) in
  match h with
  | Some p => ret p
  | None =>
      let* p := createDeferredPromise in
      modify (set_hideModalCallbacks <[modalId := p]>) ;;;
      ret p
  end.

Definition closeModal (modal : Target) : M nat :=
  let* modalId := getModalId modal in
  modify (set_modalStates <[modalId := closing]>) ;;;
  dispatch (actions.close modalId) ;;;
  resolve_open_promise modalId ;;;
  close_promise modalId.

Definition removeModal (modal : Target) : M unit :=
  let* modalId := getModalId modal in
  dispatch (actions.remove modalId) ;;;
  resolve_in modalCallbacks modalId VUndefined ;;;
  resolve_in hideModalCallbacks modalId VUndefined ;;;
  resolve_in beforeClosedCallbacks modalId VUndefined ;;;
  resolve_in openedCallbacks modalId VUndefined ;;;
  cleanupModal modalId.

Definition setFlags (modalId : string) (flags : gmap string value) : M unit :=
  dispatch (actions.setFlags modalId flags).

(** [ModalConfig] *)
Record ModalConfig := mkConfig {
  cfg_data : option (gmap string value);
  cfg_keepMounted : option bool;
  cfg_modalId : option string;
  cfg_disableClose : option bool;
}.

Definition MODAL_CONFIG_KEY : string := "__modalConfig".

(** What a [ModalRef] closes over: the identifier, [config.data], and the
    two mutable locals [data] and [disableClose] of [openModal]. *)
Record ModalRef := mkRef {
  ref_modalId : string;
  ref_data : option (gmap string value);
  ref_local_data : gmap string value;
  ref_disableClose : bool;
}.

(** "Create show promise", "Store promise reference that persists after
    close() for afterClosed()", "Create opened promise", "Create
    beforeClosed promise" *)
Definition create_deferreds (modalId : string) : M unit :=
  let* mainCallbacks := createDeferredPromise in
  modify (set_modalCallbacks <[modalId := mainCallbacks]>) ;;;
  modify (set_closedPromises <[modalId := mainCallbacks]>) ;;;
  let* openedDeferred := createDeferredPromise in
  modify (set_openedCallbacks <[modalId := openedDeferred]>) ;;;
  let* beforeClosedDeferred := createDeferredPromise in
  modify (set_beforeClosedCallbacks <[modalId := beforeClosedDeferred]>).

Definition openModal (modal : Target) (config : ModalConfig) : M ModalRef :=
  let* modalId :=
    match cfg_modalId config with
    | Some s => ret s
    | None => getModalId modal
    end in
  match modal with
  | ByComponent c =>
      let* known := gets (λ w, MODAL_REGISTRY w !! modalId) in
      match known with
      | None => register modalId c None
      | Some _ => ret tt
      end
  | ById _ => ret tt
  end ;;;
  let disableClose := default false (cfg_disableClose config) in
  let modalConfig : gmap string value :=
    <["keepMounted" := opt_bool (cfg_keepMounted config)]>
      (<["disableClose" := VBool disableClose]> ∅) in
  let data : gmap string value :=
    <[MODAL_CONFIG_KEY := VObj modalConfig]> (default ∅ (cfg_data config)) in
  modify (set_modalStates <[modalId := open]>) ;;;
  dispatch (actions.open modalId (VObj data)) ;;;
  match cfg_keepMounted config with
  | Some true => dispatch (actions.setFlags modalId {["keepMounted" := VBool true]})
  | _ => ret tt
  end ;;;
  create_deferreds modalId ;;;
  ret (mkRef modalId (cfg_data config) data disableClose).

Module ModalRefM.
(** [set disableClose(value)] *)
Definition set_disableClose (r : ModalRef) (v : bool) : M ModalRef :=
  let currentConfig : gmap string value :=
    match ref_local_data r !! MODAL_CONFIG_KEY with
    | Some (VObj c) => c
    | _ => ∅
    end in
  let updatedData : gmap string value :=
    <[MODAL_CONFIG_KEY := VObj (<["disableClose" := VBool v]> currentConfig)]>
      (ref_local_data r) in
  dispatch (actions.setFlags (ref_modalId r) {["data" := VObj updatedData]}) ;;;
  ret (mkRef (ref_modalId r) (ref_data r) (ref_local_data r) v).

Definition close (r : ModalRef) (result : value) : M unit :=
  let modalId := ref_modalId r in
  let* st := gets (λ w, modalStates w !! modalId) in
  if decide (st = Some closed) then ret tt
  else
    modify (set_modalStates <[modalId := closing]>) ;;;
    resolve_in beforeClosedCallbacks modalId result ;;;
    modify (set_beforeClosedCallbacks (delete modalId)) ;;;
    resolve_in modalCallbacks modalId result ;;;
    modify (set_modalCallbacks (delete modalId)) ;;;
    closeModal (ById modalId) ;;;
    ret tt.

Definition afterOpened (r : ModalRef) : M nat :=
  let* p := gets (λ w, openedCallbacks w !! ref_modalId r) in
  match p with
  | Some q => ret q
  | None => Promise_resolve VUndefined
  end.

Definition afterClosed (r : ModalRef) : M nat :=
  let* p := gets (λ w, closedPromises w !! ref_modalId r) in
  match p with
  | Some q => ret q
  | None => Promise_resolve VUndefined
  end.

Definition beforeClosed (r : ModalRef) : M nat :=
  let* p := gets (λ w, beforeClosedCallbacks w !! ref_modalId r) in
  match p with
  | Some q => ret q
  | None => Promise_resolve VUndefined
  end.

(** [Object.assign(data, newData)], then a fresh [show]. *)
Definition updateData (r : ModalRef) (newData : gmap string value) : M ModalRef :=
  let data := newData ∪ ref_local_data r in
  dispatch (actions.open (ref_modalId r) (VObj data)) ;;;
  ret (mkRef (ref_modalId r) (ref_data r) data (ref_disableClose r)).

Definition getState (r : ModalRef) : M ModalLifecycleState :=
  let* st := gets (λ w, modalStates w !! ref_modalId r) in
  ret (default closed st).
End ModalRefM.

Definition markClosed (modalId : string) : M unit :=
  modify (set_modalStates <[modalId := closed]>) ;;;
  modify (set_timers (λ ts, (ts ++ [modalId])%list)).

(** The callback [markClosed] handed to [setTimeout], run for the oldest
    pending timer ([CLEANUP_DELAY_MS] is the same for all of them). *)
Definition cleanup_timer_fires : M unit :=
  let* ts := gets timers in
  match ts with
  | [] => ret tt
  | modalId :: rest =>
      modify (set_timers (λ _, rest)) ;;;
      let* st := gets (λ w, modalStates w !! modalId) in
      if decide (st = Some closed) then
        modify (set_modalStates (delete modalId)) ;;;
        modify (set_closedPromises (delete modalId))
      else ret tt
  end.

Definition is_open_or_closing (s : ModalLifecycleState) : bool :=
  match s with open | closing => true | closed => false end.

Definition getOpenModals (w : World) : list string :=
  (filter (λ kv, is_open_or_closing (snd kv) = true)
     (map_to_list (modalStates w))).*1.


(** One iteration of the loop of [closeAllModals]. *)
Definition closeAll_body (modalId : string) : M nat :=
  modify (set_modalStates <[modalId := closing]>) ;;;
  resolve_in beforeClosedCallbacks modalId VUndefined ;;;
  modify (set_beforeClosedCallbacks (delete modalId)) ;;;
  resolve_in modalCallbacks modalId VUndefined ;;;
  modify (set_modalCallbacks (delete modalId)) ;;;
  closeModal (ById modalId).

Fixpoint closeAll_loop (openModals : list string) (closePromises : list nat)
    : M (list nat) :=
  match openModals with
  | [] => ret closePromises
  | modalId :: rest =>
      let* p := closeAll_body modalId in
      closeAll_loop rest (closePromises ++ [p])%list
  end.

(** [closeAllModals]: the result is the list handed to [Promise.all]; the
    promise of the [async] function is fulfilled when that [await]
    completes, see [all_settled]. A [Throw] stands for its rejection. *)
Definition closeAllModals : M (list nat) :=
  let* openModals := gets getOpenModals in
  closeAll_loop openModals [].

Definition notifyOpened (modalId : string) : M unit :=
  resolve_in openedCallbacks modalId VUndefined ;;;
  modify (set_openedCallbacks (delete modalId)).

(* ================================================================== *)
(** ** hooks.ts and hoc.tsx: what the view layer calls *)
(* ================================================================== *)

Module useModal.
(** [openCallback] *)
Definition open_ (modalId : string) (data : option (gmap string value)) : M nat :=
  let* r := openModal (ById modalId) (mkConfig data None None None) in
  ModalRefM.afterClosed r.

(** [closeCallback] *)
Definition close (modalId : string) (result : value) : M unit :=
  resolve_in modalCallbacks modalId result ;;;
  modify (set_modalCallbacks (delete modalId)) ;;;
  closeModal (ById modalId) ;;;
  ret tt.

(** [dismissCallback] *)
Definition dismiss (modalId : string) : M unit :=
  resolve_in modalCallbacks modalId VUndefined ;;;
  modify (set_modalCallbacks (delete modalId)) ;;;
  closeModal (ById modalId) ;;;
  ret tt.

(** [removeCallback] *)
Definition remove (modalId : string) : M unit := removeModal (ById modalId).

(** [onAnimationEnd], with [modalInfoRef.current] up to date: it is the
    modal's state object in the store, as after the effect that follows a
    render.  [animation_end_with] below takes the content of the ref as an
    argument. *)
Definition onAnimationEnd (modalId : string) : M unit :=
  let* current := gets (λ w, store w !! modalId) in
  if truthy_field current "isOpen" then
    notifyOpened modalId
  else
    markClosed modalId ;;;
    resolve_in hideModalCallbacks modalId VUndefined ;;;
    modify (set_hideModalCallbacks (delete modalId)) ;;;
    if truthy_field current "keepMounted" then ret tt
    else removeModal (ById modalId).
End useModal.

Module createModal.
(** The mount effect of the wrapped component. *)
Definition mount (modalId : string) (defaultOpen : bool) : M unit :=
  (if defaultOpen then useModal.open_ modalId None ;;; ret tt else ret tt) ;;;
  modify (set_ALREADY_MOUNTED <[modalId := true]>).

(** Its cleanup. *)
Definition unmount (modalId : string) : M unit :=
  modify (set_ALREADY_MOUNTED (delete modalId)).

(** The [keepMounted] effect. *)
Definition keepMounted_effect (modalId : string) : M unit :=
  setFlags modalId {["keepMounted" := VBool true]}.

(** The [delayOpen] effect: re-open with the data now in the store. *)
Definition delayOpen_effect (modalId : string) : M unit :=
  let* e := gets (λ w, store w !! modalId) in
  if truthy_field e "delayOpen" then
    let data :=
      match e ≫= lookup "data" with
      | Some (VObj d) => Some d
      | _ => None
      end in
    useModal.open_ modalId data ;;; ret tt
  else ret tt.
End createModal.

(* ================================================================== *)
(** ** Runs: any interleaving of calls *)
(* ================================================================== *)

Inductive Op :=
  | OSetDispatch
  | OResetUidSeed
  | OGetUid
  | OGetModalId (modal : Target)
  | ORegister (id : string) (c : nat) (p : option (gmap string value))
  | OUnregister (id : string)
  | OCleanupCallbacks (id : string)
  | OCleanupAllCallbacks
  | OCleanupModal (id : string)
  | OCleanupAllModals
  | OOpenModal (modal : Target) (config : ModalConfig)
  | OCloseModal (modal : Target)
  | ORemoveModal (modal : Target)
  | OSetFlags (id : string) (fl : gmap string value)
  | OCloseAllModals
  | OMarkClosed (id : string)
  | OTimer
  | ONotifyOpened (id : string)
  | ORefClose (r : ModalRef) (result : value)
  | ORefAfterOpened (r : ModalRef)
  | ORefAfterClosed (r : ModalRef)
  | ORefBeforeClosed (r : ModalRef)
  | ORefUpdateData (r : ModalRef) (d : gmap string value)
  | ORefSetDisableClose (r : ModalRef) (v : bool)
  | OHookOpen (id : string) (d : option (gmap string value))
  | OHookClose (id : string) (result : value)
  | OHookDismiss (id : string)
  | OHookRemove (id : string)
  | OAnimationEnd (id : string)
  | OMount (id : string) (defaultOpen : bool)
  | OUnmount (id : string)
  | OKeepMountedEffect (id : string)
  | ODelayOpenEffect (id : string).

Definition void {A} (m : M A) : M unit := m ;;; ret tt.

Definition run_op (o : Op) : M unit :=
  match o with
  | OSetDispatch => setDispatch
  | OResetUidSeed => resetUidSeed
  | OGetUid => void getUid
  | OGetModalId modal => void (getModalId modal)
  | ORegister id c p => register id c p
  | OUnregister id => unregister id
  | OCleanupCallbacks id => cleanupCallbacks id
  | OCleanupAllCallbacks => cleanupAllCallbacks
  | OCleanupModal id => cleanupModal id
  | OCleanupAllModals => cleanupAllModals
  | OOpenModal modal config => void (openModal modal config)
  | OCloseModal modal => void (closeModal modal)
  | ORemoveModal modal => removeModal modal
  | OSetFlags id fl => setFlags id fl
  | OCloseAllModals => void closeAllModals
  | OMarkClosed id => markClosed id
  | OTimer => cleanup_timer_fires
  | ONotifyOpened id => notifyOpened id
  | ORefClose r result => ModalRefM.close r result
  | ORefAfterOpened r => void (ModalRefM.afterOpened r)
  | ORefAfterClosed r => void (ModalRefM.afterClosed r)
  | ORefBeforeClosed r => void (ModalRefM.beforeClosed r)
  | ORefUpdateData r d => void (ModalRefM.updateData r d)
  | ORefSetDisableClose r v => void (ModalRefM.set_disableClose r v)
  | OHookOpen id d => void (useModal.open_ id d)
  | OHookClose id result => useModal.close id result
  | OHookDismiss id => useModal.dismiss id
  | OHookRemove id => useModal.remove id
  | OAnimationEnd id => useModal.onAnimationEnd id
  | OMount id defaultOpen => createModal.mount id defaultOpen
  | OUnmount id => createModal.unmount id
  | OKeepMountedEffect id => createModal.keepMounted_effect id
  | ODelayOpenEffect id => createModal.delayOpen_effect id
  end.

(** The world after a sequence of calls; a call that throws leaves the
    world as it was at the throw and the run goes on (the caller caught
    the exception, or a later event handler runs). *)
Fixpoint run (ops : list Op) (w : World) : World :=
  match ops with
  | [] => w
  | o :: rest => run rest (exec (run_op o) w)
  end.

(* ================================================================== *)
(** ** Predicates and derived quantities used in the statements *)
(* ================================================================== *)

(** [preserves I m]: [m] keeps [I], whether it returns or throws. *)
Definition preserves {A} (I : World → Prop) (m : M A) : Prop :=
  ∀ w, I w → I (exec m w).

(** [closedPromises] is written for an identifier by [openModal] (through
    [create_deferreds]) and erased by [cleanupModal] and by the cleanup
    timer.  [touches_only ok reset_ok o] says that a call [o] performs
    those writes only for identifiers satisfying [ok], and resets the
    identifier counter only if [reset_ok].  Where the identifier is only
    known at run time (a component target, the timer queue, all ledger
    keys) every identifier must satisfy [ok]. *)
Definition target_within (ok : string → Prop) (modal : Target) : Prop :=
  match modal with
  | ById s => ok s
  | ByComponent _ => ∀ s, ok s
  end.

(** The calls that write [closedPromises] only for identifiers in [ok]. *)
Definition touches_only (ok : string → Prop) (reset_ok : Prop) (o : Op) : Prop :=
  match o with
  | OResetUidSeed => reset_ok
  | OCleanupModal s => ok s
  | OCleanupAllModals => ∀ s, ok s
  | OOpenModal modal config =>
      match cfg_modalId config with
      | Some s => ok s
      | None => target_within ok modal
      end
  | ORemoveModal modal => target_within ok modal
  | OTimer => ∀ s, ok s
  | OHookOpen s _ => ok s
  | OHookRemove s => ok s
  | OAnimationEnd s => ok s
  | OMount s defaultOpen => if defaultOpen then ok s else True
  | ODelayOpenEffect s => ok s
  | _ => True
  end.

(** [p] is fulfilled with [v]. *)
Definition fulfilled (p : nat) (v : value) (w : World) : Prop :=
  promises w !! p = Some (Some v).

(** [p] is pending and none of the four ledgers that store a [resolve]
    function holds it. *)
Definition orphan (p : nat) (w : World) : Prop :=
  promises w !! p = Some None
  ∧ (∀ id, modalCallbacks w !! id ≠ Some p)
  ∧ (∀ id, hideModalCallbacks w !! id ≠ Some p)
  ∧ (∀ id, openedCallbacks w !! id ≠ Some p)
  ∧ (∀ id, beforeClosedCallbacks w !! id ≠ Some p).

(** The identifier counter has reached [n]. *)
Definition seed_at_least (n : N) (w : World) : Prop := (n ≤ uidSeed w)%N.

(** The [ModalRef] that [openModal] returns in [w]. *)
Definition opened_ref (modal : Target) (config : ModalConfig) (w : World) : ModalRef :=
  match fst (openModal modal config w) with
  | Ok r => r
  | Throw _ => mkRef "" None ∅ false
  end.

(** The identifier [openModal] works on: [config.modalId ?? getModalId(modal)]. *)
Definition effective_id (modal : Target) (config : ModalConfig) (w : World) : string :=
  match cfg_modalId config with
  | Some s => s
  | None =>
      match modal with
      | ById s => s
      | ByComponent c =>
          match symModalId w !! c with
          | Some s => s
          | None => uid_string (uidSeed w)
          end
      end
  end.

(** What [ledger[id]?.resolve(v)] does to the promise cells. *)
Definition resolve_opt (p : option nat) (v : value) (ps : list (option value))
    : list (option value) :=
  match p with
  | Some q => resolve_cell q v ps
  | None => ps
  end.


(** [openModal(modal)] without a config argument: [config = {}]. *)
Definition no_config : ModalConfig := mkConfig None None None None.







(** Every promise a resolver ledger holds has been allocated. *)
Definition bounded (w : World) : Prop :=
  (∀ id p, modalCallbacks w !! id = Some p → p < length (promises w))
  ∧ (∀ id p, hideModalCallbacks w !! id = Some p → p < length (promises w))
  ∧ (∀ id p, openedCallbacks w !! id = Some p → p < length (promises w))
  ∧ (∀ id p, beforeClosedCallbacks w !! id = Some p → p < length (promises w)).

(** [p] has been allocated, and the only resolver-ledger slots that may
    hold it are the main, opened and [beforeClosed] slots of [id]. *)
Definition held_only_at (id : string) (p : nat) (w : World) : Prop :=
  p < length (promises w)
  ∧ (∀ i, i ≠ id → modalCallbacks w !! i ≠ Some p)
  ∧ (∀ i, hideModalCallbacks w !! i ≠ Some p)
  ∧ (∀ i, i ≠ id → openedCallbacks w !! i ≠ Some p)
  ∧ (∀ i, i ≠ id → beforeClosedCallbacks w !! i ≠ Some p).

(* ================================================================== *)
(** ** Further functions of core.ts and hooks.ts *)
(* ================================================================== *)


(** hooks.ts [useModalData], as a function of the store in [ModalContext]
    and the identifier in [ModalIdContext] ([None] for [null]).  The [data]
    field is a record or [undefined] by its type; a value that is not an
    object has no properties to copy. *)
Definition useModalData (modals : ModalStore) (ctx : option string)
    : Res (option (gmap string value)) :=
  match ctx with
  | Some modalId =>
      if String.eqb modalId "" then
        Throw "[ModalManager] useModalData must be used inside a modal component. Make sure you're using createModal() to wrap your modal."
      else
        match modals !! modalId ≫= lookup "data" with
        | Some (VObj data) => Ok (Some (delete MODAL_CONFIG_KEY data))
        | Some v => if truthy v then Ok (Some ∅) else Ok None
        | None => Ok None
        end
  | None =>
      Throw "[ModalManager] useModalData must be used inside a modal component. Make sure you're using createModal() to wrap your modal."
  end.

(** hooks.ts [useModalConfig]: [modalInfo?.data?.[MODAL_CONFIG_KEY] ?? {}] *)
Definition useModalConfig (modals : ModalStore) (ctx : option string) : Res value :=
  match ctx with
  | Some modalId =>
      if String.eqb modalId "" then
        Throw "[ModalManager] useModalConfig must be used inside a modal component."
      else
        match modals !! modalId ≫= lookup "data" with
        | Some (VObj data) =>
            match data !! MODAL_CONFIG_KEY with
            | Some VUndefined | None => Ok (VObj ∅)
            | Some config => Ok config
            end
        | _ => Ok (VObj ∅)
        end
  | None => Throw "[ModalManager] useModalConfig must be used inside a modal component."
  end.


(** The user part of a [data] object: everything but the internal key. *)
Definition user_data (d : option (gmap string value)) : gmap string value :=
  delete MODAL_CONFIG_KEY (default ∅ d).

(** The [modalConfig] object [openModal] builds from its config. *)
Definition modal_config_of (config : ModalConfig) : gmap string value :=
  <["keepMounted" := opt_bool (cfg_keepMounted config)]>
    (<["disableClose" := VBool (default false (cfg_disableClose config))]> ∅).

(** The [data] object [openModal] dispatches. *)
Definition data_of (config : ModalConfig) : gmap string value :=
  <[MODAL_CONFIG_KEY := VObj (modal_config_of config)]> (default ∅ (cfg_data config)).





(* ================================================================== *)
(** ** Ledger reads that reach [Object.prototype] *)
(* ================================================================== *)

(** The ledgers of core.ts and api.ts are plain objects too.  The
    definitions above read them by own key, which is what the code does for
    an identifier that is not a name of [Object.prototype].  For any other
    identifier [ledger[id]] is never [undefined]: without an own entry it
    is the inherited member, which has no [resolve] and no [promise].
    Module [Proto] gives [closeModal], [removeModal] and [getState] with
    these reads for every identifier; a [World] describes ledgers whose
    prototype is [Object.prototype]. *)
Inductive Member (V : Type) :=
  | Own (v : V)
  | FromPrototype
  | Absent.
Arguments Own {V} v.
Arguments FromPrototype {V}.
Arguments Absent {V}.

(** [ledger[id]].  No ledger owns the key [__proto__]: an assignment under
    that key goes to the accessor of the prototype and creates no own
    property. *)
Definition member {V} (ledger : gmap string V) (id : string) : Member V :=
  if String.eqb id "__proto__" then FromPrototype
  else
    match ledger !! id with
    | Some v => Own v
    | None => if inherited id then FromPrototype else Absent
    end.

(** What [ModalRef.getState] can return. *)
Inductive StateRead :=
  | Lifecycle (s : ModalLifecycleState)
  | PrototypeMember.

Module Proto.
(** Calling [.resolve] of an inherited member: it is [undefined].  The
    wording of the message is the engine's. *)
Definition TypeError : string := "TypeError: resolve is not a function".

(** [ledger[modalId]?.resolve(v)] *)
Definition resolve_in (ledger : World → gmap string nat) (id : string)
    (v : value) : M unit :=
  let* d := gets (λ w, member (ledger w) id) in
  match d with
  | Own p => resolve p v
  | FromPrototype => throw TypeError
  | Absent => ret tt
  end.

(** [if (modalCallbacks[modalId]) { ...resolve(undefined); delete ... }] *)
Definition resolve_open_promise (modalId : string) : M unit :=
  let* cb := gets (λ w, member (modalCallbacks w) modalId) in
  match cb with
  | Own p => resolve p VUndefined ;;; modify (set_modalCallbacks (delete modalId))
  | FromPrototype => throw TypeError
  | Absent => ret tt
  end.

(** [if (!hideModalCallbacks[modalId]) { ... }] and
    [hideModalCallbacks[modalId].promise]: [None] is [undefined], the
    [promise] property of an inherited member. *)
Definition close_promise (modalId : string) : M (option nat) :=
  let* h := gets (λ w, member (hideModalCallbacks w) modalId) in
  match h with
  | Own p => ret (Some p)
  | FromPrototype => ret None
  | Absent =>
      let* p := createDeferredPromise in
      modify (set_hideModalCallbacks <[modalId := p]>) ;;;
      ret (Some p)
  end.

(** [modalStates[modalId] = "closing"]: under [__proto__] the string is
    handed to the prototype accessor, which ignores it. *)
Definition set_state (modalId : string) (s : ModalLifecycleState) : M unit :=
  if String.eqb modalId "__proto__" then ret tt
  else modify (set_modalStates <[modalId := s]>).

Definition closeModal (modal : Target) : M (option nat) :=
  let* modalId := getModalId modal in
  set_state modalId closing ;;;
  dispatch (actions.close modalId) ;;;
  resolve_open_promise modalId ;;;
  close_promise modalId.

Definition removeModal (modal : Target) : M unit :=
  let* modalId := getModalId modal in
  dispatch (actions.remove modalId) ;;;
  resolve_in modalCallbacks modalId VUndefined ;;;
  resolve_in hideModalCallbacks modalId VUndefined ;;;
  resolve_in beforeClosedCallbacks modalId VUndefined ;;;
  resolve_in openedCallbacks modalId VUndefined ;;;
  cleanupModal modalId.

(** [modalStates[modalId] ?? "closed"] *)
Definition getState (r : ModalRef) : M StateRead :=
  let* st := gets (λ w, member (modalStates w) (ref_modalId r)) in
  ret (match st with
       | Own s => Lifecycle s
       | FromPrototype => PrototypeMember
       | Absent => Lifecycle closed
       end).
End Proto.

(* ================================================================== *)
(** ** Reasoning about operations *)
(* ================================================================== *)

Section preserves.
Context (I : World → Prop).

Lemma preserves_ret {A} (a : A) : preserves I (ret a).
Proof. intros w H. exact H. Qed.

Lemma preserves_throw {A} msg : preserves I (@throw A msg).
Proof. intros w H. exact H. Qed.

Lemma preserves_gets {A} (f : World → A) : preserves I (gets f).
Proof. intros w H. exact H. Qed.

Lemma preserves_modify f : (∀ w, I w → I (f w)) → preserves I (modify f).
Proof. intros Hf w H. apply Hf, H. Qed.

Lemma preserves_bind {A B} (m : M A) (k : A → M B) :
  preserves I m → (∀ a, preserves I (k a)) → preserves I (bind m k).
Proof.
  intros Hm Hk w H. unfold exec, bind.
  specialize (Hm w H). unfold exec in Hm.
  destruct (m w) as [[a|msg] w1]; simpl in *.
  - apply Hk, Hm.
  - exact Hm.
Qed.

Lemma preserves_void {A} (m : M A) : preserves I m → preserves I (void m).
Proof. intros Hm. apply preserves_bind; [exact Hm | intros; apply preserves_ret]. Qed.

Lemma preserves_for_each {A} (xs : list A) (body : A → M unit) :
  (∀ x, preserves I (body x)) → preserves I (for_each xs body).
Proof.
  intros Hb. induction xs as [|x xs IH]; simpl.
  - apply preserves_ret.
  - apply preserves_bind; [apply Hb | intros _; exact IH].
Qed.
End preserves.

Lemma exec_bind {A B} (m : M A) (k : A → M B) w :
  exec (bind m k) w =
  match fst (m w) with
  | Ok a => exec (k a) (exec m w)
  | Throw _ => exec m w
  end.
Proof. unfold exec, bind. destruct (m w) as [[a|msg] w1]; reflexivity. Qed.

Lemma run_app ops1 ops2 w : run (ops1 ++ ops2) w = run ops2 (run ops1 w).
Proof. revert w. induction ops1 as [|o ops1 IH]; intros w; simpl; [done | apply IH]. Qed.

Lemma run_preserves (I : World → Prop) (ok : Op → Prop) ops w :
  (∀ o, ok o → preserves I (run_op o)) →
  Forall ok ops → I w → I (run ops w).
Proof.
  intros Hstep Hall. revert w.
  induction Hall as [|o ops Ho _ IH]; intros w Hw; simpl; [done |].
  apply IH, Hstep; done.
Qed.

(** Steps through the binds of an operation; what is left are the
    [modify] side conditions and the primitives it does not know. *)
Ltac preserves_step :=
  lazymatch goal with
  | |- preserves _ (bind _ _) => apply preserves_bind; [| intros ?]
  | |- preserves _ (ret _) => apply preserves_ret
  | |- preserves _ (throw _) => apply preserves_throw
  | |- preserves _ (gets _) => apply preserves_gets
  | |- preserves _ (void _) => apply preserves_void
  | |- preserves _ (for_each _ _) => apply preserves_for_each; intros ?
  | |- preserves _ (match ?x with _ => _ end) => destruct x
  | |- preserves _ (if ?x then _ else _) => destruct x
  end.


Lemma preserves_ext {A} (I : World → Prop) (m m' : M A) :
  (∀ w, m w = m' w) → preserves I m' → preserves I m.
Proof. intros E H w Hw. unfold exec. rewrite E. apply H, Hw. Qed.

Lemma resolve_open_promise_alt modalId w :
  resolve_open_promise modalId w =
  (resolve_in modalCallbacks modalId VUndefined ;;;
   modify (set_modalCallbacks (delete modalId))) w.
Proof.
  unfold resolve_open_promise, resolve_in, bind, gets, ret, modify; simpl.
  destruct (modalCallbacks w !! modalId) as [p|] eqn:E; simpl; [done |].
  f_equal. destruct w; unfold set_modalCallbacks; simpl in *.
  f_equal. symmetry. by apply delete_id.
Qed.

(** *** Invariants and the calls that preserve them *)

Lemma preserves_bind_ret {A B} (I : World → Prop) (a : A) (k : A → M B) :
  preserves I (k a) → preserves I (bind (ret a) k).
Proof. intros H w Hw. exact (H w Hw). Qed.

(** An invariant that (1) does not read the store, the registry, the
    mounted table, the lifecycle map or the timers, (2) survives the
    removal of entries from the four ledgers that hold resolvers,
    (3) survives a resolution through one of those ledgers and the
    allocation of a close promise, (4) survives an increment of the
    identifier counter, and (5) survives the writes to [closedPromises]
    for the identifiers in [ok], is preserved by every call within
    [touches_only ok reset_ok]. *)
Section stable.
Context (I : World → Prop) (ok : string → Prop) (reset_ok : Prop).
Hypothesis I_store : ∀ f w, I w → I (set_store f w).
Hypothesis I_dispatchFn : ∀ f w, I w → I (set_dispatchFn f w).
Hypothesis I_dispatched : ∀ f w, I w → I (set_dispatched f w).
Hypothesis I_registry : ∀ f w, I w → I (set_MODAL_REGISTRY f w).
Hypothesis I_mounted : ∀ f w, I w → I (set_ALREADY_MOUNTED f w).
Hypothesis I_sym : ∀ f w, I w → I (set_symModalId f w).
Hypothesis I_states : ∀ f w, I w → I (set_modalStates f w).
Hypothesis I_timers : ∀ f w, I w → I (set_timers f w).
Hypothesis I_seed : ∀ w, I w → I (set_uidSeed js_incr w).
Hypothesis I_reset : reset_ok → ∀ w, I w → I (set_uidSeed (λ _, 0%N) w).
Hypothesis I_shrink_main :
  ∀ f, (∀ m, f m ⊆ m) → ∀ w, I w → I (set_modalCallbacks f w).
Hypothesis I_shrink_hide :
  ∀ f, (∀ m, f m ⊆ m) → ∀ w, I w → I (set_hideModalCallbacks f w).
Hypothesis I_shrink_opened :
  ∀ f, (∀ m, f m ⊆ m) → ∀ w, I w → I (set_openedCallbacks f w).
Hypothesis I_shrink_before :
  ∀ f, (∀ m, f m ⊆ m) → ∀ w, I w → I (set_beforeClosedCallbacks f w).
Hypothesis I_resolve_main : ∀ id v, preserves I (resolve_in modalCallbacks id v).
Hypothesis I_resolve_hide : ∀ id v, preserves I (resolve_in hideModalCallbacks id v).
Hypothesis I_resolve_opened : ∀ id v, preserves I (resolve_in openedCallbacks id v).
Hypothesis I_resolve_before : ∀ id v, preserves I (resolve_in beforeClosedCallbacks id v).
Hypothesis I_Promise_resolve : ∀ v, preserves I (Promise_resolve v).
Hypothesis I_close_promise : ∀ id, preserves I (close_promise id).
Hypothesis I_closed_delete :
  ∀ id, ok id → ∀ w, I w → I (set_closedPromises (delete id) w).
Hypothesis I_create_deferreds : ∀ id, ok id → preserves I (create_deferreds id).

Local Lemma delete_shrinks {V} (id : string) (m : gmap string V) : delete id m ⊆ m.
Proof. apply delete_subseteq. Qed.

Local Lemma clear_shrinks {V} (m : gmap string V) : (∅ : gmap string V) ⊆ m.
Proof. apply map_empty_subseteq. Qed.

Local Ltac shrink_tac := first [apply delete_shrinks | apply clear_shrinks].

Local Ltac stable_step :=
  lazymatch goal with
  | |- preserves _ (resolve_in modalCallbacks _ _) => apply I_resolve_main
  | |- preserves _ (resolve_in hideModalCallbacks _ _) => apply I_resolve_hide
  | |- preserves _ (resolve_in openedCallbacks _ _) => apply I_resolve_opened
  | |- preserves _ (resolve_in beforeClosedCallbacks _ _) => apply I_resolve_before
  | |- preserves _ (Promise_resolve _) => apply I_Promise_resolve
  | |- preserves _ (close_promise _) => apply I_close_promise
  | |- preserves _ (modify _) =>
      apply preserves_modify; intros ? ?;
      lazymatch goal with
      | |- _ (set_store _ _) => by apply I_store
      | |- _ (set_dispatchFn _ _) => by apply I_dispatchFn
      | |- _ (set_dispatched _ _) => by apply I_dispatched
      | |- _ (set_MODAL_REGISTRY _ _) => by apply I_registry
      | |- _ (set_ALREADY_MOUNTED _ _) => by apply I_mounted
      | |- _ (set_symModalId _ _) => by apply I_sym
      | |- _ (set_modalStates _ _) => by apply I_states
      | |- _ (set_closedPromises _ _) => by apply I_closed_delete
      | |- _ (set_timers _ _) => by apply I_timers
      | |- _ (set_uidSeed _ _) => by apply I_seed
      | |- _ (set_modalCallbacks _ _) =>
          apply I_shrink_main; [intros; shrink_tac | assumption]
      | |- _ (set_hideModalCallbacks _ _) =>
          apply I_shrink_hide; [intros; shrink_tac | assumption]
      | |- _ (set_openedCallbacks _ _) =>
          apply I_shrink_opened; [intros; shrink_tac | assumption]
      | |- _ (set_beforeClosedCallbacks _ _) =>
          apply I_shrink_before; [intros; shrink_tac | assumption]
      end
  | |- _ => preserves_step
  end.

Local Ltac stable_tac := repeat stable_step.

Lemma stable_dispatch a : preserves I (dispatch a).
Proof.
  intros w H. unfold exec, dispatch. destruct (dispatchFn w); simpl; [done |].
  by apply I_dispatched, I_store.
Qed.

Lemma stable_getUid : preserves I getUid.
Proof. unfold getUid. stable_tac. Qed.

Lemma stable_getModalId modal : preserves I (getModalId modal).
Proof. unfold getModalId. destruct modal; stable_tac; try apply stable_getUid. Qed.

Lemma stable_register id c p : preserves I (register id c p).
Proof. unfold register. stable_tac. Qed.

Lemma stable_cleanupModal id : ok id → preserves I (cleanupModal id).
Proof. intros Hok. unfold cleanupModal. stable_tac. Qed.

Lemma stable_resolve_open_promise id : preserves I (resolve_open_promise id).
Proof.
  eapply preserves_ext; [apply resolve_open_promise_alt |]. stable_tac.
Qed.

Lemma stable_closeModal modal : preserves I (closeModal modal).
Proof.
  unfold closeModal.
  apply preserves_bind; [apply stable_getModalId | intros ?].
  apply preserves_bind; [stable_tac | intros ?].
  apply preserves_bind; [apply stable_dispatch | intros ?].
  apply preserves_bind; [apply stable_resolve_open_promise | intros ?].
  apply I_close_promise.
Qed.

(** The part of [removeModal] after the identifier is known. *)
Local Lemma stable_remove_tail id :
  ok id →
  preserves I
    (dispatch (actions.remove id) ;;;
     resolve_in modalCallbacks id VUndefined ;;;
     resolve_in hideModalCallbacks id VUndefined ;;;
     resolve_in beforeClosedCallbacks id VUndefined ;;;
     resolve_in openedCallbacks id VUndefined ;;;
     cleanupModal id).
Proof.
  intros Hok.
  apply preserves_bind; [apply stable_dispatch | intros ?].
  do 4 (apply preserves_bind; [stable_tac | intros ?]).
  by apply stable_cleanupModal.
Qed.

Lemma stable_removeModal modal : target_within ok modal → preserves I (removeModal modal).
Proof.
  intros Hok. unfold removeModal. destruct modal as [s|c].
  - apply (preserves_bind_ret _ s). by apply stable_remove_tail.
  - apply preserves_bind; [apply stable_getModalId | intros a].
    apply stable_remove_tail, Hok.
Qed.

(** The part of [openModal] after the identifier is known. *)
Local Lemma stable_open_tail modal config id (r : ModalRef) (d : value) :
  ok id →
  preserves I
    (match modal with
     | ByComponent c =>
         let* known := gets (λ w, MODAL_REGISTRY w !! id) in
         match known with
         | None => register id c None
         | Some _ => ret tt
         end
     | ById _ => ret tt
     end ;;;
     modify (set_modalStates <[id := open]>) ;;;
     dispatch (actions.open id d) ;;;
     match cfg_keepMounted config with
     | Some true => dispatch (actions.setFlags id {["keepMounted" := VBool true]})
     | _ => ret tt
     end ;;;
     create_deferreds id ;;;
     ret r).
Proof.
  intros Hok. apply preserves_bind.
  { destruct modal; [apply preserves_ret |].
    apply preserves_bind; [apply preserves_gets | intros [?|]];
      [apply preserves_ret | apply stable_register]. }
  intros _. apply preserves_bind; [stable_tac | intros _].
  apply preserves_bind; [apply stable_dispatch | intros _].
  apply preserves_bind.
  { destruct (cfg_keepMounted config) as [[]|];
      [apply stable_dispatch | apply preserves_ret | apply preserves_ret]. }
  intros _. apply preserves_bind; [by apply I_create_deferreds | intros _].
  apply preserves_ret.
Qed.

Lemma stable_openModal modal config :
  match cfg_modalId config with
  | Some s => ok s
  | None => target_within ok modal
  end →
  preserves I (openModal modal config).
Proof.
  intros Hok. unfold openModal. cbv zeta. destruct (cfg_modalId config) as [s|].
  - apply (preserves_bind_ret _ s). by apply stable_open_tail.
  - destruct modal as [s|c].
    + apply (preserves_bind_ret _ s). by apply (stable_open_tail (ById s)).
    + apply preserves_bind; [apply stable_getModalId | intros a].
      apply (stable_open_tail (ByComponent c)), Hok.
Qed.

Lemma stable_closeAll_body id : preserves I (closeAll_body id).
Proof.
  unfold closeAll_body.
  do 5 (apply preserves_bind; [stable_tac | intros ?]).
  apply stable_closeModal.
Qed.

Lemma stable_closeAll_loop ids acc : preserves I (closeAll_loop ids acc).
Proof.
  revert acc. induction ids as [|id ids IH]; intros acc; simpl.
  - apply preserves_ret.
  - apply preserves_bind; [apply stable_closeAll_body | intros ?; apply IH].
Qed.

Lemma stable_ref_close r result : preserves I (ModalRefM.close r result).
Proof.
  unfold ModalRefM.close.
  apply preserves_bind; [apply preserves_gets | intros st].
  destruct (decide (st = Some closed)); [apply preserves_ret |].
  do 5 (apply preserves_bind; [stable_tac | intros ?]).
  apply preserves_bind; [apply stable_closeModal | intros ?; apply preserves_ret].
Qed.

Lemma stable_hook_open id d : ok id → preserves I (useModal.open_ id d).
Proof.
  intros Hok. unfold useModal.open_, ModalRefM.afterClosed.
  apply preserves_bind; [by apply stable_openModal | intros ?]. stable_tac.
Qed.

Lemma stable_hook_close id result : preserves I (useModal.close id result).
Proof.
  unfold useModal.close.
  do 2 (apply preserves_bind; [stable_tac | intros ?]).
  apply preserves_bind; [apply stable_closeModal | intros ?; apply preserves_ret].
Qed.

Lemma stable_notifyOpened id : preserves I (notifyOpened id).
Proof. unfold notifyOpened. stable_tac. Qed.

Lemma stable_markClosed id : preserves I (markClosed id).
Proof. unfold markClosed. stable_tac. Qed.

Lemma stable_onAnimationEnd id : ok id → preserves I (useModal.onAnimationEnd id).
Proof.
  intros Hok. unfold useModal.onAnimationEnd.
  apply preserves_bind; [apply preserves_gets | intros current].
  destruct (truthy_field current "isOpen"); [apply stable_notifyOpened |].
  apply preserves_bind; [apply stable_markClosed | intros ?].
  do 2 (apply preserves_bind; [stable_tac | intros ?]).
  destruct (truthy_field current "keepMounted");
    [apply preserves_ret | by apply stable_removeModal].
Qed.

Lemma stable_run_op o : touches_only ok reset_ok o → preserves I (run_op o).
Proof.
  intros Ho. destruct o; cbn [run_op touches_only] in *.
  - unfold setDispatch. stable_tac.
  - unfold resetUidSeed. apply preserves_modify. by apply I_reset.
  - apply preserves_void, stable_getUid.
  - apply preserves_void, stable_getModalId.
  - apply stable_register.
  - unfold unregister. stable_tac.
  - unfold cleanupCallbacks. stable_tac.
  - unfold cleanupAllCallbacks. stable_tac.
  - by apply stable_cleanupModal.
  - unfold cleanupAllModals. apply preserves_bind; [apply preserves_gets | intros ?].
    apply preserves_for_each. intros; apply stable_cleanupModal, Ho.
  - by apply preserves_void, stable_openModal.
  - apply preserves_void, stable_closeModal.
  - by apply stable_removeModal.
  - apply stable_dispatch.
  - apply preserves_void. unfold closeAllModals.
    apply preserves_bind; [apply preserves_gets | intros ?; apply stable_closeAll_loop].
  - apply stable_markClosed.
  - unfold cleanup_timer_fires.
    apply preserves_bind; [apply preserves_gets | intros [|t ts]]; [apply preserves_ret |].
    pose proof (Ho t). stable_tac.
  - apply stable_notifyOpened.
  - apply stable_ref_close.
  - apply preserves_void. unfold ModalRefM.afterOpened. stable_tac.
  - apply preserves_void. unfold ModalRefM.afterClosed. stable_tac.
  - apply preserves_void. unfold ModalRefM.beforeClosed. stable_tac.
  - apply preserves_void. unfold ModalRefM.updateData.
    apply preserves_bind; [apply stable_dispatch | intros ?; apply preserves_ret].
  - apply preserves_void. unfold ModalRefM.set_disableClose.
    apply preserves_bind; [apply stable_dispatch | intros ?; apply preserves_ret].
  - by apply preserves_void, stable_hook_open.
  - apply stable_hook_close.
  - apply stable_hook_close.
  - by apply stable_removeModal.
  - by apply stable_onAnimationEnd.
  - unfold createModal.mount. apply preserves_bind; [| intros ?; stable_tac].
    destruct defaultOpen; [| apply preserves_ret].
    apply preserves_bind; [by apply stable_hook_open | intros ?; apply preserves_ret].
  - unfold createModal.unmount. stable_tac.
  - apply stable_dispatch.
  - unfold createModal.delayOpen_effect.
    apply preserves_bind; [apply preserves_gets | intros e].
    destruct (truthy_field e "delayOpen"); [| apply preserves_ret].
    apply preserves_bind; [by apply stable_hook_open | intros ?; apply preserves_ret].
Qed.
End stable.

(* ================================================================== *)
(** ** Promise cells *)
(* ================================================================== *)

Lemma resolve_cell_length p v ps : length (resolve_cell p v ps) = length ps.
Proof.
  unfold resolve_cell. destruct (ps !! p) as [[?|]|]; [done | | done].
  apply length_insert.
Qed.

Lemma resolve_cell_pending p v ps :
  ps !! p = Some None → resolve_cell p v ps !! p = Some (Some v).
Proof.
  intros H. unfold resolve_cell. rewrite H.
  apply list_lookup_insert_eq. by eapply lookup_lt_Some.
Qed.

Lemma resolve_cell_settled p v u ps :
  ps !! p = Some (Some u) → resolve_cell p v ps = ps.
Proof. intros H. unfold resolve_cell. by rewrite H. Qed.

Lemma resolve_cell_other p q v ps :
  p ≠ q → resolve_cell p v ps !! q = ps !! q.
Proof.
  intros H. unfold resolve_cell. destruct (ps !! p) as [[?|]|]; [done | | done].
  by apply list_lookup_insert_ne.
Qed.

(** A fulfilled cell is never overwritten: the first resolution wins. *)
Lemma resolve_cell_keeps p q v u ps :
  ps !! q = Some (Some u) → resolve_cell p v ps !! q = Some (Some u).
Proof.
  intros H. destruct (decide (p = q)) as [->|Hne].
  - by erewrite resolve_cell_settled.
  - by rewrite resolve_cell_other.
Qed.

(** *** A fulfilled promise keeps its value *)

Lemma fulfilled_settled_with p v w : fulfilled p v w ↔ settled_with w p = Some v.
Proof.
  unfold fulfilled, settled_with. destruct (promises w !! p) as [[u|]|]; simpl; naive_solver.
Qed.

Lemma fulfilled_resolve_in p v L id u : preserves (fulfilled p v) (resolve_in L id u).
Proof.
  intros w H. unfold exec, resolve_in, bind, gets, resolve, modify, ret; simpl.
  destruct (L w !! id); simpl; [| done]. by apply resolve_cell_keeps.
Qed.

Lemma fulfilled_app p v w cell :
  fulfilled p v w → fulfilled p v (set_promises (λ ps, (ps ++ [cell])%list) w).
Proof. unfold fulfilled; simpl. intros H. by apply lookup_app_l_Some. Qed.

Lemma fulfilled_close_promise p v id : preserves (fulfilled p v) (close_promise id).
Proof.
  intros w H. unfold exec, close_promise, bind, gets, ret, createDeferredPromise, modify; simpl.
  destruct (hideModalCallbacks w !! id); simpl; [done |]. by apply fulfilled_app.
Qed.

Lemma fulfilled_create_deferreds p v id : preserves (fulfilled p v) (create_deferreds id).
Proof.
  intros w H. unfold exec, create_deferreds, bind, createDeferredPromise, modify; simpl.
  unfold fulfilled in *; simpl. by do 3 apply lookup_app_l_Some.
Qed.

Lemma touches_only_all o : touches_only (λ _, True) True o.
Proof.
  destruct o; simpl; try done.
  - destruct (cfg_modalId config); [done | by destruct modal].
  - by destruct modal.
  - by destruct defaultOpen.
Qed.

(** Whatever is called, in whatever order, a fulfilled promise stays
    fulfilled with the value it first received. *)
Lemma fulfilled_run_op p v o : preserves (fulfilled p v) (run_op o).
Proof.
  apply (stable_run_op _ (λ _, True) True); try (by intros; assumption).
  - intros. by apply fulfilled_resolve_in.
  - intros. by apply fulfilled_resolve_in.
  - intros. by apply fulfilled_resolve_in.
  - intros. by apply fulfilled_resolve_in.
  - intros u w H. by apply fulfilled_app.
  - intros. apply fulfilled_close_promise.
  - intros. apply fulfilled_create_deferreds.
  - apply touches_only_all.
Qed.

Lemma fulfilled_run p v ops w : fulfilled p v w → fulfilled p v (run ops w).
Proof.
  apply (run_preserves (fulfilled p v) (λ _, True)).
  - intros o _. apply fulfilled_run_op.
  - by apply Forall_true.
Qed.

(** *** A pending promise outside the ledgers stays pending *)

Lemma shrink_avoids (f : gmap string nat → gmap string nat) (m : gmap string nat) p :
  (∀ m, f m ⊆ m) → (∀ id, m !! id ≠ Some p) → ∀ id, f m !! id ≠ Some p.
Proof.
  intros Hf Hm id E. apply (Hm id). eapply lookup_weaken; [exact E | apply Hf].
Qed.

Lemma insert_avoids (m : gmap string nat) k q p :
  q ≠ p → (∀ id, m !! id ≠ Some p) → ∀ id, <[k := q]> m !! id ≠ Some p.
Proof.
  intros Hq Hm id. rewrite lookup_insert. case_decide; [congruence | apply Hm].
Qed.

Lemma orphan_lt p w : orphan p w → p < length (promises w).
Proof. intros [H _]. by eapply lookup_lt_Some. Qed.

Lemma orphan_resolve_in_main p id v : preserves (orphan p) (resolve_in modalCallbacks id v).
Proof.
  intros w (Hp & H1 & H2 & H3 & H4).
  unfold exec, resolve_in, bind, gets, resolve, modify, ret; simpl.
  destruct (modalCallbacks w !! id) as [q|] eqn:E; simpl; [| done].
  split_and!; try done. simpl. rewrite resolve_cell_other; [done |].
  intros ->. by apply (H1 id).
Qed.

Lemma orphan_resolve_in_hide p id v : preserves (orphan p) (resolve_in hideModalCallbacks id v).
Proof.
  intros w (Hp & H1 & H2 & H3 & H4).
  unfold exec, resolve_in, bind, gets, resolve, modify, ret; simpl.
  destruct (hideModalCallbacks w !! id) as [q|] eqn:E; simpl; [| done].
  split_and!; try done. simpl. rewrite resolve_cell_other; [done |].
  intros ->. by apply (H2 id).
Qed.

Lemma orphan_resolve_in_opened p id v : preserves (orphan p) (resolve_in openedCallbacks id v).
Proof.
  intros w (Hp & H1 & H2 & H3 & H4).
  unfold exec, resolve_in, bind, gets, resolve, modify, ret; simpl.
  destruct (openedCallbacks w !! id) as [q|] eqn:E; simpl; [| done].
  split_and!; try done. simpl. rewrite resolve_cell_other; [done |].
  intros ->. by apply (H3 id).
Qed.

Lemma orphan_resolve_in_before p id v :
  preserves (orphan p) (resolve_in beforeClosedCallbacks id v).
Proof.
  intros w (Hp & H1 & H2 & H3 & H4).
  unfold exec, resolve_in, bind, gets, resolve, modify, ret; simpl.
  destruct (beforeClosedCallbacks w !! id) as [q|] eqn:E; simpl; [| done].
  split_and!; try done. simpl. rewrite resolve_cell_other; [done |].
  intros ->. by apply (H4 id).
Qed.

Lemma orphan_Promise_resolve p v : preserves (orphan p) (Promise_resolve v).
Proof.
  intros w (Hp & H1 & H2 & H3 & H4). unfold exec, Promise_resolve; simpl.
  split_and!; try done. simpl. by apply lookup_app_l_Some.
Qed.

Lemma orphan_close_promise p id : preserves (orphan p) (close_promise id).
Proof.
  intros w Ho. pose proof (orphan_lt _ _ Ho) as Hlt.
  destruct Ho as (Hp & H1 & H2 & H3 & H4).
  unfold exec, close_promise, bind, gets, ret, createDeferredPromise, modify; simpl.
  destruct (hideModalCallbacks w !! id) as [q|] eqn:E; simpl; [done |].
  split_and!; simpl; try done.
  - by apply lookup_app_l_Some.
  - apply insert_avoids; [lia | done].
Qed.

Lemma orphan_create_deferreds p id : preserves (orphan p) (create_deferreds id).
Proof.
  intros w Ho. pose proof (orphan_lt _ _ Ho) as Hlt.
  destruct Ho as (Hp & H1 & H2 & H3 & H4).
  unfold exec, create_deferreds, bind, createDeferredPromise, modify; simpl.
  split_and!; simpl; try done.
  - by do 3 apply lookup_app_l_Some.
  - apply insert_avoids; [lia | done].
  - apply insert_avoids; [rewrite length_app; simpl; lia | done].
  - apply insert_avoids; [rewrite !length_app; simpl; lia | done].
Qed.

(** No call ever resolves a pending promise that the ledgers no longer
    hold. *)
Lemma orphan_run_op p o : preserves (orphan p) (run_op o).
Proof.
  apply (stable_run_op _ (λ _, True) True); try (by intros; assumption).
  - intros f Hf w (Hp & H1 & H2 & H3 & H4). split_and!; try done.
    simpl. by apply shrink_avoids.
  - intros f Hf w (Hp & H1 & H2 & H3 & H4). split_and!; try done.
    simpl. by apply shrink_avoids.
  - intros f Hf w (Hp & H1 & H2 & H3 & H4). split_and!; try done.
    simpl. by apply shrink_avoids.
  - intros f Hf w (Hp & H1 & H2 & H3 & H4). split_and!; try done.
    simpl. by apply shrink_avoids.
  - intros; apply orphan_resolve_in_main.
  - intros; apply orphan_resolve_in_hide.
  - intros; apply orphan_resolve_in_opened.
  - intros; apply orphan_resolve_in_before.
  - intros; apply orphan_Promise_resolve.
  - intros; apply orphan_close_promise.
  - intros; apply orphan_create_deferreds.
  - apply touches_only_all.
Qed.

Lemma orphan_run p ops w : orphan p w → orphan p (run ops w).
Proof.
  apply (run_preserves (orphan p) (λ _, True)).
  - intros o _. apply orphan_run_op.
  - by apply Forall_true.
Qed.

(** *** The identifier counter only grows *)

Lemma js_incr_mono n : (n ≤ js_incr n)%N.
Proof. unfold js_incr. destruct (n <? MAX_EXACT)%N; lia. Qed.

Lemma js_incr_exact n : (n < MAX_EXACT)%N → js_incr n = (n + 1)%N.
Proof. intros H. unfold js_incr. apply N.ltb_lt in H. by rewrite H. Qed.

Lemma touches_only_no_reset o : o ≠ OResetUidSeed → touches_only (λ _, True) False o.
Proof.
  intros Ho. destruct o; simpl; try done.
  - destruct (cfg_modalId config); [done | by destruct modal].
  - by destruct modal.
  - by destruct defaultOpen.
Qed.

Lemma seed_run_op n o : o ≠ OResetUidSeed → preserves (seed_at_least n) (run_op o).
Proof.
  intros Ho.
  apply (stable_run_op _ (λ _, True) False); try (by intros; assumption).
  - intros w H. unfold seed_at_least in *; simpl. pose proof (js_incr_mono (uidSeed w)). lia.
  - done.
  - intros id v w H. unfold exec, resolve_in, bind, gets, resolve, modify, ret; simpl.
    by destruct (modalCallbacks w !! id).
  - intros id v w H. unfold exec, resolve_in, bind, gets, resolve, modify, ret; simpl.
    by destruct (hideModalCallbacks w !! id).
  - intros id v w H. unfold exec, resolve_in, bind, gets, resolve, modify, ret; simpl.
    by destruct (openedCallbacks w !! id).
  - intros id v w H. unfold exec, resolve_in, bind, gets, resolve, modify, ret; simpl.
    by destruct (beforeClosedCallbacks w !! id).
  - by intros v w H.
  - intros id w H. unfold exec, close_promise, bind, gets, ret, createDeferredPromise, modify; simpl.
    by destruct (hideModalCallbacks w !! id).
  - by intros id _ w H.
  - by apply touches_only_no_reset.
Qed.

Lemma seed_run n ops w :
  Forall (λ o, o ≠ OResetUidSeed) ops → seed_at_least n w → seed_at_least n (run ops w).
Proof. apply run_preserves. intros o. apply seed_run_op. Qed.

(* ================================================================== *)
(** ** The reducer *)
(* ================================================================== *)

Lemma lookup_snoc {A} (l : list A) (x : A) : (l ++ [x])%list !! length l = Some x.
Proof. by apply list_lookup_middle. Qed.

Lemma lookup_snoc_app {A} (l k : list A) (x : A) :
  ((l ++ [x]) ++ k)%list !! length l = Some x.
Proof. rewrite <- app_assoc. by apply list_lookup_middle. Qed.

Lemma lookup_snoc_snoc {A} (l : list A) (x y : A) :
  ((l ++ [x]) ++ [y])%list !! S (length l) = Some y.
Proof. apply list_lookup_middle. rewrite length_app; simpl; lia. Qed.

Lemma store_get_own (state : ModalStore) id e :
  state !! id = Some e → store_get state id = Some e.
Proof. intros E. unfold store_get. by rewrite E. Qed.


Lemma show_entry_get am (state : ModalStore) id d :
  show_entry am (store_get state id) id d = show_entry am (state !! id) id d.
Proof.
  unfold show_entry, store_get. destruct (state !! id); [done |].
  by destruct (inherited id).
Qed.

Lemma entry_of_denote h state id :
  store_wf h state → entry_of h state id = store_get (denote h state) id.
Proof.
  intros [_ Hwf]. unfold entry_of, store_get, denote. rewrite lookup_omap.
  destruct (store_at h state !! id) as [l|] eqn:El; simpl; [| done].
  destruct (Hwf id l El) as [e He]. by rewrite He.
Qed.

Lemma store_at_app h k l : l < length h → store_at (h ++ k) l = store_at h l.
Proof. intros H. unfold store_at. by rewrite lookup_app_l. Qed.

Lemma entry_at_app h k l : l < length h → entry_at (h ++ k) l = entry_at h l.
Proof. intros H. unfold entry_at. by rewrite lookup_app_l. Qed.

Lemma store_at_new h m : store_at (h ++ [HStore m]) (length h) = m.
Proof. unfold store_at. by rewrite lookup_snoc. Qed.

Lemma entry_at_new h e k : entry_at ((h ++ [HEntry e]) ++ k) (length h) = Some e.
Proof.
  unfold entry_at. by rewrite lookup_snoc_app.
Qed.

Lemma store_wf_lt h state id l :
  store_wf h state → store_at h state !! id = Some l → l < length h.
Proof.
  intros [_ Hwf] Hl. destruct (Hwf id l Hl) as [e He].
  unfold entry_at in He. destruct (h !! l) eqn:E; [| done]. by eapply lookup_lt_Some.
Qed.

Lemma denote_app h k state : store_wf h state → denote (h ++ k) state = denote h state.
Proof.
  intros Hwf. pose proof Hwf as [[m Hm] _].
  assert (state < length h) as Hlt by by eapply lookup_lt_Some.
  apply map_eq; intros id. unfold denote. rewrite !lookup_omap, store_at_app by done.
  destruct (store_at h state !! id) as [l|] eqn:El; simpl; [| done].
  apply entry_at_app. by eapply store_wf_lt.
Qed.

(** Allocating a store object whose fields are [m] with [id] redirected to
    a fresh modal-state object [e]. *)
Lemma denote_upsert h state id e :
  store_wf h state →
  let h' := ((h ++ [HEntry e]) ++ [HStore (<[id := length h]> (store_at h state))])%list in
  denote h' (S (length h)) = <[id := e]> (denote h state) ∧ store_wf h' (S (length h)).
Proof.
  intros Hwf h'.
  assert (store_at h' (S (length h)) = <[id := length h]> (store_at h state)) as Es.
  { unfold h', store_at. by rewrite lookup_snoc_snoc. }
  assert (∀ i l, store_at h state !! i = Some l → entry_at h' l = entry_at h l) as Ee.
  { intros i l Hl. unfold h'. rewrite <- app_assoc. apply entry_at_app.
    by eapply store_wf_lt. }
  split.
  - apply map_eq; intros i. unfold denote at 1. rewrite lookup_omap, Es.
    rewrite !lookup_insert. case_decide as Hi.
    + simpl. apply entry_at_new.
    + unfold denote. rewrite lookup_omap.
      destruct (store_at h state !! i) as [l|] eqn:El; simpl; [| done]. by eapply Ee.
  - split.
    + exists (<[id := length h]> (store_at h state)). apply lookup_snoc_snoc.
    + intros i l. rewrite Es, lookup_insert. case_decide as Hi.
      * intros [= <-]. unfold h'. rewrite entry_at_new. by eexists.
      * intros Hl. rewrite (Ee i l Hl). destruct Hwf as [_ Hwf]. by eapply Hwf.
Qed.

Lemma remove_heap h id m :
  <[length h := HStore (delete id (store_at (h ++ [HStore m]) (length h)))]>
    (h ++ [HStore m]) = (h ++ [HStore (delete id m)])%list.
Proof.
  rewrite store_at_new. rewrite insert_app_r_alt by lia.
  by replace (length h - length h) with 0 by lia.
Qed.

(** The heap-level reducer computes [reducer] on the denoted store, and
    returns a well-formed store. *)
Lemma reducerH_refines am h state action :
  store_wf h state →
  denote (reducerH am h state action).1 (reducerH am h state action).2
    = reducer am (denote h state) action
  ∧ store_wf (reducerH am h state action).1 (reducerH am h state action).2.
Proof.
  intros Hwf. unfold reducerH, reducer, alloc.
  rewrite <- (show_entry_get am (denote h state)).
  rewrite <- !entry_of_denote by done.
  destruct (String.eqb (type action) T_SHOW).
  { simpl. rewrite length_app; simpl. replace (length h + 1) with (S (length h)) by lia.
    by apply denote_upsert. }
  destruct (String.eqb (type action) T_HIDE).
  { destruct (entry_of h state _) as [ms|]; simpl; [| done].
    rewrite length_app; simpl. replace (length h + 1) with (S (length h)) by lia.
    by apply denote_upsert. }
  destruct (String.eqb (type action) T_REMOVE).
  { simpl. rewrite remove_heap.
    assert (store_at (h ++ [HStore (delete (modalId (payload action)) (store_at h state))])
              (length h) = delete (modalId (payload action)) (store_at h state)) as Es
      by apply store_at_new.
    split.
    - apply map_eq; intros i. unfold denote. rewrite lookup_omap, Es.
      rewrite !lookup_delete. case_decide; [done |]. rewrite lookup_omap.
      destruct (store_at h state !! i) as [l|] eqn:El; simpl; [| done].
      apply entry_at_app. by eapply store_wf_lt.
    - split.
      + eexists. apply lookup_snoc.
      + intros i l. rewrite Es, lookup_delete. case_decide; [done |]. intros Hl.
        rewrite entry_at_app by by eapply store_wf_lt.
        destruct Hwf as [_ Hwf]. by eapply Hwf. }
  destruct (String.eqb (type action) T_SET_FLAGS).
  { destruct (entry_of h state _) as [ms|]; simpl; [| done].
    rewrite length_app; simpl. replace (length h + 1) with (S (length h)) by lia.
    by apply denote_upsert. }
  done.
Qed.

(** C3 (as amended).  The reducer allocates and never writes to an object
    that existed before the call: the heap it leaves extends the heap it
    was given.  [hide] and [set-flags] on an identifier that is neither a
    key of the store nor a name of [Object.prototype], and an unknown
    action type, return the very reference they were given and allocate
    nothing: these are the cases in which the guard finds [state[modalId]]
    undefined.  [show], [remove] of an identifier the store owns, and
    [hide] or [set-flags] past their guard return the address of a store
    object allocated by the call, whether or not its contents differ from
    the input's. *)
Theorem reducer_reference_discipline am h state action :
  h `prefix_of` (reducerH am h state action).1
  ∧ (returns_input h state action = true → reducerH am h state action = (h, state))
  ∧ (builds_store h state action = true →
       (length h ≤ (reducerH am h state action).2)%nat
       ∧ ∃ m, (reducerH am h state action).1 !! (reducerH am h state action).2
              = Some (HStore m))
  ∧ (store_wf h state →
       ∀ id, entry_of h state id = None
             ↔ denote h state !! id = None ∧ inherited id = false).
Proof.
  split_and!.
  - unfold reducerH, alloc.
    destruct (String.eqb (type action) T_SHOW).
    { simpl. rewrite <- app_assoc. by apply prefix_app_r. }
    destruct (String.eqb (type action) T_HIDE).
    { destruct (entry_of h state _) as [ms|]; simpl; [| done].
      rewrite <- app_assoc. by apply prefix_app_r. }
    destruct (String.eqb (type action) T_REMOVE).
    { simpl. rewrite remove_heap. by apply prefix_app_r. }
    destruct (String.eqb (type action) T_SET_FLAGS); [| done].
    destruct (entry_of h state _) as [ms|]; simpl; [| done].
    rewrite <- app_assoc. by apply prefix_app_r.
  - unfold reducerH, returns_input.
    destruct (String.eqb (type action) T_SHOW); [done |].
    destruct (String.eqb (type action) T_HIDE).
    { intros E%bool_decide_eq_true. by rewrite E. }
    destruct (String.eqb (type action) T_REMOVE); [done |].
    destruct (String.eqb (type action) T_SET_FLAGS); [| done].
    intros E%bool_decide_eq_true. by rewrite E.
  - unfold reducerH, builds_store, alloc.
    assert (∀ x y, (length h ≤ S (length h))%nat
                   ∧ ∃ m, ((h ++ [x]) ++ [HStore y])%list !! S (length h) = Some (HStore m))
      as Hnew.
    { intros x y. split; [lia |]. eexists. apply lookup_snoc_snoc. }
    destruct (String.eqb (type action) T_SHOW).
    { intros _. simpl. rewrite length_app; simpl.
      replace (length h + 1) with (S (length h)) by lia. apply Hnew. }
    destruct (String.eqb (type action) T_HIDE).
    { intros [ms E]%bool_decide_eq_true. rewrite E. simpl. rewrite length_app; simpl.
      replace (length h + 1) with (S (length h)) by lia. apply Hnew. }
    destruct (String.eqb (type action) T_REMOVE).
    { intros _. simpl. rewrite remove_heap. split; [lia |]. eexists. apply lookup_snoc. }
    destruct (String.eqb (type action) T_SET_FLAGS); [| done].
    intros [ms E]%bool_decide_eq_true. rewrite E. simpl. rewrite length_app; simpl.
    replace (length h + 1) with (S (length h)) by lia. apply Hnew.
  - intros Hwf id. rewrite entry_of_denote by done. unfold store_get.
    destruct (denote h state !! id); [by split; [| intros []] |].
    destruct (inherited id); split; try done. by intros [].
Qed.

(** C3, counterexample.  Starting from [{}], [show] and [hide] leave the
    modal ["m"] hidden.  A second [hide] changes nothing in the store's
    contents and yet returns a reference different from its input: the
    branch builds its result without comparing. *)
Lemma reducer_hide_hidden_returns_new_reference :
  let r0 := reducerH ∅ [HStore ∅] 0 (actions.open "m" VUndefined) in
  let r1 := reducerH ∅ r0.1 r0.2 (actions.close "m") in
  let r2 := reducerH ∅ r1.1 r1.2 (actions.close "m") in
  store_wf r1.1 r1.2
  ∧ denote r1.1 r1.2 !! "m"
    = Some (hide_entry (show_entry ∅ None "m" VUndefined))
  ∧ denote r2.1 r2.2 = denote r1.1 r1.2
  ∧ r2.2 ≠ r1.2.
Proof.
  intros r0 r1 r2.
  assert (store_wf [HStore ∅] 0) as W0.
  { split; [by eexists |]. intros id l. unfold store_at; simpl. by rewrite lookup_empty. }
  destruct (reducerH_refines ∅ [HStore ∅] 0 (actions.open "m" VUndefined) W0) as [D0 W1].
  fold r0 in D0, W1.
  destruct (reducerH_refines ∅ r0.1 r0.2 (actions.close "m") W1) as [D1 W2].
  fold r1 in D1, W2.
  destruct (reducerH_refines ∅ r1.1 r1.2 (actions.close "m") W2) as [D2 _].
  fold r2 in D2.
  split_and!.
  - exact W2.
  - rewrite D1, D0. vm_compute. reflexivity.
  - rewrite D2, D1, D0. vm_compute. reflexivity.
  - vm_compute. lia.
Qed.

(** [remove] has no guard: it copies the store and deletes from the copy,
    also when the identifier is not in it. *)
Lemma reducer_remove_absent_returns_new_reference :
  let h := [HStore ∅] in
  let r := reducerH ∅ h 0 (actions.remove "ghost") in
  store_wf h 0
  ∧ entry_of h 0 "ghost" = None
  ∧ denote r.1 r.2 = denote h 0
  ∧ r.2 ≠ 0.
Proof.
  split_and!.
  - split; [by eexists |]. intros id l. unfold store_at; simpl. by rewrite lookup_empty.
  - done.
  - vm_compute. done.
  - vm_compute. lia.
Qed.

(** The [show] branch for every identifier.  A [show] action upserts the
    entry of its identifier: the new entry carries [modalId] and the [data]
    of the action, [isOpen] is [!!ALREADY_MOUNTED[modalId]] and [delayOpen]
    its negation, every other field of a previous entry is kept, and no
    other identifier is touched.  For an identifier that is not a name of
    [Object.prototype] the flag is true exactly when the table records the
    identifier, which the mount effect of a wrapped component does and its
    cleanup undoes.  For a name of [Object.prototype] that the table does
    not own, the read finds the inherited member. *)
Theorem show_sets_isOpen_from_mounted am (state : ModalStore) id d :
  (∃ e, reducer am state (actions.open id d) !! id = Some e
        ∧ e !! "modalId" = Some (VStr id)
        ∧ e !! "data" = Some d
        ∧ e !! "isOpen" = Some (VBool (already_mounted am id))
        ∧ e !! "delayOpen" = Some (VBool (negb (already_mounted am id)))
        ∧ (∀ k, k ∉ ["modalId"; "data"; "isOpen"; "delayOpen"] →
                e !! k = state !! id ≫= lookup k))
  ∧ (∀ id', id' ≠ id → reducer am state (actions.open id d) !! id' = state !! id')
  ∧ (inherited id = false → (already_mounted am id = true ↔ am !! id = Some true))
  ∧ (inherited id = true → am !! id = None → already_mounted am id = true)
  ∧ (∀ w b, returns (createModal.mount id b) w = true →
            already_mounted (ALREADY_MOUNTED (exec (createModal.mount id b) w)) id = true)
  ∧ (∀ w, already_mounted (ALREADY_MOUNTED (exec (createModal.unmount id) w)) id
          = inherited id).
Proof.
  split_and!.
  - exists (show_entry am (state !! id) id d).
    unfold reducer, actions.open; simpl. rewrite lookup_insert_eq.
    unfold show_entry. split_and!.
    + done.
    + by rewrite !lookup_insert_ne, lookup_insert_eq by done.
    + by rewrite !lookup_insert_ne, lookup_insert_eq by done.
    + by rewrite !lookup_insert_ne, lookup_insert_eq by done.
    + by rewrite lookup_insert_eq.
    + intros k Hk. rewrite !lookup_insert_ne by set_solver.
      destruct (state !! id); simpl; [done | apply lookup_empty].
  - intros id' Hne. unfold reducer, actions.open; simpl. by rewrite lookup_insert_ne.
  - intros Hi. unfold already_mounted. rewrite Hi.
    destruct (am !! id) as [[]|]; split; try done; by intros [= ?].
  - intros Hi E. unfold already_mounted. by rewrite E.
  - intros w b. unfold returns, exec, createModal.mount, bind.
    match goal with |- context [match ?m w with _ => _ end] =>
      destruct (m w) as [[?|?] w1] end; simpl; [| done].
    intros _. unfold already_mounted; simpl. by rewrite lookup_insert_eq.
  - intros w. unfold exec, createModal.unmount, modify, already_mounted; simpl.
    by rewrite lookup_delete_eq.
Qed.

(** C7, at a failing input.  Nothing is mounted; [show] for the identifier
    ["valueOf"] yields an entry with [isOpen] true and [delayOpen] false,
    against the comment of the branch ("if already mounted, show
    immediately; otherwise delay"), while for ["m"] it yields [isOpen]
    false and [delayOpen] true. *)
Theorem show_of_prototype_name_is_open_unmounted :
  let am : gmap string bool := ∅ in
  am !! "valueOf" = None
  ∧ reducer am initialState (actions.open "valueOf" VUndefined) !! "valueOf" ≫= lookup "isOpen"
    = Some (VBool true)
  ∧ reducer am initialState (actions.open "valueOf" VUndefined) !! "valueOf" ≫= lookup "delayOpen"
    = Some (VBool false)
  ∧ reducer am initialState (actions.open "m" VUndefined) !! "m" ≫= lookup "isOpen"
    = Some (VBool false).
Proof. intros am. split_and!; vm_compute; reflexivity. Qed.

(* ================================================================== *)
(** ** Identifier generation *)
(* ================================================================== *)

Lemma uid_string_inj n m : uid_string n = uid_string m → n = m.
Proof.
  unfold uid_string. intros H. apply String.app_inj in H. by apply pretty_N_inj in H.
Qed.

Lemma getUid_spec w :
  getUid w = (Ok (uid_string (uidSeed w)), set_uidSeed js_incr w).
Proof. reflexivity. Qed.

(** C8.  While the counter is in the range where a JavaScript number
    counts exactly (below [2^53], which no process reaches by generating
    identifiers), [getUid] strictly increases the counter, and the
    identifier it returns differs from the one returned by any later call,
    whatever else is called in between, as long as [resetUidSeed] is not.
    No operation other than [resetUidSeed] ever lowers the counter, and
    [resetUidSeed] sets it back to zero. *)
Theorem getUid_strictly_monotone_and_collision_free w ops
    (Hexact : (uidSeed w < MAX_EXACT)%N)
    (Hnoreset : Forall (λ o, o ≠ OResetUidSeed) ops) :
  (uidSeed w < uidSeed (exec getUid w))%N
  ∧ (uidSeed (exec getUid w) ≤ uidSeed (run ops (exec getUid w)))%N
  ∧ (∃ a b, fst (getUid w) = Ok a
            ∧ fst (getUid (run ops (exec getUid w))) = Ok b
            ∧ a ≠ b)
  ∧ (∀ o w', o ≠ OResetUidSeed → (uidSeed w' ≤ uidSeed (exec (run_op o) w'))%N)
  ∧ (∀ w', uidSeed (exec resetUidSeed w') = 0%N).
Proof.
  assert (uidSeed (exec getUid w) = (uidSeed w + 1)%N) as E1.
  { unfold exec. rewrite getUid_spec; simpl. by apply js_incr_exact. }
  assert (uidSeed (exec getUid w) ≤ uidSeed (run ops (exec getUid w)))%N as E2.
  { apply (seed_run (uidSeed (exec getUid w)) ops); [done |]. unfold seed_at_least. lia. }
  split_and!.
  - lia.
  - exact E2.
  - exists (uid_string (uidSeed w)), (uid_string (uidSeed (run ops (exec getUid w)))).
    split_and!; [done | done |]. intros H%uid_string_inj. lia.
  - intros o w' Ho. apply (seed_run_op (uidSeed w') o Ho w'). unfold seed_at_least. lia.
  - done.
Qed.

(** C8 at the initial world, with a component identifier and a further identifier generated in between. *)
Lemma getUid_strictly_monotone_and_collision_free_witness :
  (uidSeed initialWorld < uidSeed (exec getUid initialWorld))%N
  ∧ (uidSeed (exec getUid initialWorld)
     ≤ uidSeed (run [OGetModalId (ByComponent 7); OGetUid] (exec getUid initialWorld)))%N
  ∧ (∃ a b, fst (getUid initialWorld) = Ok a
            ∧ fst (getUid (run [OGetModalId (ByComponent 7); OGetUid]
                             (exec getUid initialWorld))) = Ok b
            ∧ a ≠ b)
  ∧ (∀ o w', o ≠ OResetUidSeed → (uidSeed w' ≤ uidSeed (exec (run_op o) w'))%N)
  ∧ (∀ w', uidSeed (exec resetUidSeed w') = 0%N).
Proof.
  apply (getUid_strictly_monotone_and_collision_free initialWorld
           [OGetModalId (ByComponent 7); OGetUid]).
  - vm_compute. reflexivity.
  - repeat constructor; discriminate.
Defined.

Example getUid_sequence :
  fst (getUid initialWorld) = Ok "_modal_0"
  ∧ fst (getUid (exec getUid initialWorld)) = Ok "_modal_1"
  ∧ fst (getUid (exec resetUidSeed (exec getUid initialWorld))) = Ok "_modal_0".
Proof. vm_compute. done. Qed.

(* ================================================================== *)
(** ** [getState] *)
(* ================================================================== *)

Lemma getState_spec r w :
  ModalRefM.getState r w = (Ok (default closed (modalStates w !! ref_modalId r)), w).
Proof. reflexivity. Qed.

Lemma cleanup_timer_fires_spec w t rest :
  timers w = t :: rest →
  let w' := exec cleanup_timer_fires w in
  timers w' = rest
  ∧ modalStates w' =
      (if decide (modalStates w !! t = Some closed)
       then delete t (modalStates w) else modalStates w).
Proof.
  intros Ht. unfold exec, cleanup_timer_fires, bind, gets, modify, ret; simpl.
  rewrite Ht; simpl. by destruct (decide (modalStates w !! t = Some closed)).
Qed.

(** Once every pending cleanup timer has fired, an identifier that is
    [closed] with a timer pending, or already without an entry, has no
    lifecycle entry. *)
Lemma timers_purge id ts : ∀ w,
  timers w = ts →
  modalStates w !! id = None ∨ (modalStates w !! id = Some closed ∧ id ∈ ts) →
  modalStates (run (replicate (length ts) OTimer) w) !! id = None.
Proof.
  induction ts as [|t rest IH]; intros w Ht Hs; simpl.
  - destruct Hs as [H | [_ H]]; [done | by apply elem_of_nil in H].
  - destruct (cleanup_timer_fires_spec w t rest Ht) as [Ht' Hm].
    apply IH; [done |]. rewrite Hm.
    destruct (decide (modalStates w !! t = Some closed)) as [Hc|Hc].
    + destruct (decide (t = id)) as [->|Hne]; [left; apply lookup_delete_eq |].
      rewrite lookup_delete_ne by done.
      destruct Hs as [H | [H Hin]]; [by left | right]. split; [done |].
      apply elem_of_cons in Hin as [-> | Hin]; [done | done].
    + destruct Hs as [H | [H Hin]]; [by left | right]. split; [done |].
      apply elem_of_cons in Hin as [-> | Hin]; [done | done].
Qed.

Lemma inherited_proto id : String.eqb id "__proto__" = true → inherited id = true.
Proof. intros ->%String.eqb_eq. vm_compute. reflexivity. Qed.

Lemma member_ordinary {V} (ledger : gmap string V) id :
  inherited id = false →
  member ledger id = match ledger !! id with Some v => Own v | None => Absent end.
Proof.
  intros Hi. unfold member. destruct (String.eqb id "__proto__") eqn:E.
  - apply inherited_proto in E. congruence.
  - by rewrite Hi.
Qed.

Lemma member_inherited {V} (ledger : gmap string V) id :
  inherited id = true → ledger !! id = None → member ledger id = FromPrototype.
Proof.
  intros Hi E. unfold member. rewrite E, Hi. by destruct (String.eqb id "__proto__").
Qed.

Lemma member_FromPrototype {V} (ledger : gmap string V) id :
  member ledger id = FromPrototype →
  inherited id = true ∧ (ledger !! id = None ∨ id = "__proto__").
Proof.
  unfold member. destruct (String.eqb id "__proto__") eqn:E.
  - intros _. split; [by apply inherited_proto |]. right. by apply String.eqb_eq.
  - destruct (ledger !! id); [done |]. destruct (inherited id); [auto | done].
Qed.

Lemma Proto_getState_ordinary r w :
  inherited (ref_modalId r) = false →
  Proto.getState r w = (Ok (Lifecycle (default closed (modalStates w !! ref_modalId r))), w).
Proof.
  intros Hi. unfold Proto.getState, bind, gets, ret. rewrite member_ordinary by done.
  by destruct (modalStates w !! ref_modalId r).
Qed.

(** [getState] for every identifier.  It always returns and changes
    nothing.  For an identifier that is not a name of [Object.prototype] it
    answers with one of the three lifecycle states, and with [closed]
    exactly when the lifecycle map has no entry for the identifier or holds
    [closed] for it: in particular in the initial world, right after
    [markClosed], and once the cleanup timers pending after [markClosed]
    have fired and erased the entry.  For a name of [Object.prototype]
    without an own entry the read finds the inherited member. *)
Theorem getState_total_and_closed_by_default r w :
  let id := ref_modalId r in
  (∃ s, Proto.getState r w = (Ok s, w))
  ∧ (inherited id = false →
       ∃ s, Proto.getState r w = (Ok (Lifecycle s), w)
            ∧ (modalStates w !! id = Some s ∨ (modalStates w !! id = None ∧ s = closed)))
  ∧ (inherited id = false →
       (fst (Proto.getState r w) = Ok (Lifecycle closed)
        ↔ modalStates w !! id = None ∨ modalStates w !! id = Some closed))
  ∧ (fst (Proto.getState r w) = Ok PrototypeMember
     ↔ member (modalStates w) id = FromPrototype)
  ∧ (inherited id = true → modalStates w !! id = None →
       fst (Proto.getState r w) = Ok PrototypeMember)
  ∧ (inherited id = false → fst (Proto.getState r initialWorld) = Ok (Lifecycle closed))
  ∧ (inherited id = false →
       fst (Proto.getState r (exec (markClosed id) w)) = Ok (Lifecycle closed))
  ∧ (inherited id = false →
       let w1 := exec (markClosed id) w in
       let w2 := run (replicate (length (timers w1)) OTimer) w1 in
       modalStates w2 !! id = None
       ∧ fst (Proto.getState r w2) = Ok (Lifecycle closed)).
Proof.
  intros id. split_and!.
  - unfold Proto.getState, bind, gets, ret. by eexists.
  - intros Hi. rewrite Proto_getState_ordinary by done. fold id.
    destruct (modalStates w !! id) as [s|]; eexists; (split; [reflexivity |]); auto.
  - intros Hi. rewrite Proto_getState_ordinary by done. fold id. simpl.
    destruct (modalStates w !! id) as [[]|]; simpl; split; try done;
      try (by intros [|]); auto.
  - unfold Proto.getState, bind, gets, ret. simpl. fold id.
    destruct (member (modalStates w) id); by split.
  - intros Hi E. unfold Proto.getState, bind, gets, ret. simpl. fold id.
    by rewrite member_inherited.
  - intros Hi. by rewrite Proto_getState_ordinary.
  - intros Hi. rewrite Proto_getState_ordinary by done. fold id. simpl.
    by rewrite lookup_insert_eq.
  - intros Hi w1 w2.
    assert (modalStates w2 !! id = None) as E.
    { apply timers_purge; [done |]. right. unfold w1, exec, markClosed, bind, modify; simpl.
      split; [apply lookup_insert_eq |]. apply elem_of_app. right. by apply list_elem_of_singleton. }
    split; [done |]. rewrite Proto_getState_ordinary by done. fold id. simpl. by rewrite E.
Qed.

(** The same for the reference of a modal ["m"] that was opened and
    marked closed, before and after its cleanup timer. *)
Lemma getState_total_and_closed_by_default_witness :
  let r := mkRef "m" None ∅ false in
  let w := exec (openModal (ById "m") no_config) (exec setDispatch initialWorld) in
  let w1 := exec (markClosed "m") w in
  let w2 := run (replicate (length (timers w1)) OTimer) w1 in
  inherited "m" = false
  ∧ fst (Proto.getState r w) = Ok (Lifecycle open)
  ∧ fst (Proto.getState r w1) = Ok (Lifecycle closed)
  ∧ modalStates w2 !! "m" = None
  ∧ fst (Proto.getState r w2) = Ok (Lifecycle closed).
Proof.
  intros r w w1 w2.
  assert (inherited "m" = false) as Hi by (vm_compute; reflexivity).
  destruct (getState_total_and_closed_by_default r w) as (_ & _ & _ & _ & _ & _ & A & B).
  split; [exact Hi |]. split; [vm_compute; reflexivity |].
  split; [exact (A Hi) |]. exact (B Hi).
Defined.

(** C9, at a failing input.  The modal ["constructor"] is opened, its
    closing animation ends, and the cleanup timer erases its lifecycle
    entry.  Asked before, [getState] answers [closed]; asked now, it
    answers with the member that [modalStates] inherits under that name,
    which is none of the three states its return type
    [ModalLifecycleState] lists.  The same answer is given in the initial
    world. *)
Theorem getState_of_prototype_name_is_no_state :
  let r := mkRef "constructor" None ∅ false in
  let w := exec (openModal (ById "constructor") no_config) (exec setDispatch initialWorld) in
  let w1 := exec (markClosed "constructor") w in
  let w2 := exec cleanup_timer_fires w1 in
  fst (Proto.getState r w) = Ok (Lifecycle open)
  ∧ fst (Proto.getState r w1) = Ok (Lifecycle closed)
  ∧ modalStates w2 !! "constructor" = None
  ∧ fst (Proto.getState r w2) = Ok PrototypeMember
  ∧ fst (Proto.getState r initialWorld) = Ok PrototypeMember
  ∧ (∀ s, fst (Proto.getState r w2) ≠ Ok (Lifecycle s)).
Proof.
  intros r w w1 w2.
  assert (fst (Proto.getState r w2) = Ok PrototypeMember) as E by (vm_compute; reflexivity).
  split_and!; try (vm_compute; reflexivity).
  intros s. rewrite E. discriminate.
Qed.


(* ================================================================== *)
(** ** [openModal], [closeModal] and [ModalRef.close] *)
(* ================================================================== *)

Lemma create_deferreds_spec id w :
  let n := length (promises w) in
  let w' := exec (create_deferreds id) w in
  promises w' = promises w ++ [None; None; None]
  ∧ modalCallbacks w' = <[id := n]> (modalCallbacks w)
  ∧ closedPromises w' = <[id := n]> (closedPromises w)
  ∧ openedCallbacks w' = <[id := S n]> (openedCallbacks w)
  ∧ beforeClosedCallbacks w' = <[id := S (S n)]> (beforeClosedCallbacks w)
  ∧ hideModalCallbacks w' = hideModalCallbacks w
  ∧ modalStates w' = modalStates w
  ∧ dispatchFn w' = dispatchFn w.
Proof.
  unfold exec, create_deferreds, bind, createDeferredPromise, modify; simpl.
  split_and!; try done.
  - by rewrite <- !app_assoc.
  - rewrite length_app; simpl. f_equal. lia.
  - rewrite !length_app; simpl. f_equal. lia.
Qed.

Lemma openModal_spec modal config w :
  dispatchFn w = ProviderDispatch →
  let n := length (promises w) in
  let mid := effective_id modal config w in
  let w' := exec (openModal modal config) w in
  (∃ r, fst (openModal modal config w) = Ok r ∧ ref_modalId r = mid)
  ∧ promises w' = promises w ++ [None; None; None]
  ∧ modalCallbacks w' = <[mid := n]> (modalCallbacks w)
  ∧ closedPromises w' = <[mid := n]> (closedPromises w)
  ∧ openedCallbacks w' = <[mid := S n]> (openedCallbacks w)
  ∧ beforeClosedCallbacks w' = <[mid := S (S n)]> (beforeClosedCallbacks w)
  ∧ hideModalCallbacks w' = hideModalCallbacks w
  ∧ modalStates w' = <[mid := open]> (modalStates w)
  ∧ dispatchFn w' = ProviderDispatch.
Proof.
  intros Hd. unfold effective_id, exec, openModal, create_deferreds, createDeferredPromise,
    getModalId, getUid, register, dispatch, bind, gets, modify, ret.
  destruct (cfg_modalId config) as [s|]; [| destruct modal as [s|c]]; simpl.
  - destruct modal as [s'|c]; simpl; [| destruct (MODAL_REGISTRY w !! s); simpl];
      rewrite Hd; simpl;
      (destruct (cfg_keepMounted config) as [[]|]; simpl; rewrite ?Hd; simpl;
       (split; [eexists; split; reflexivity |]);
       rewrite <- !app_assoc, !length_app; simpl;
       split_and!; try done; f_equal; lia).
  - rewrite Hd; simpl.
    destruct (cfg_keepMounted config) as [[]|]; simpl; rewrite ?Hd; simpl;
      (split; [eexists; split; reflexivity |]);
      rewrite <- !app_assoc, !length_app; simpl;
      split_and!; try done; f_equal; lia.
  - destruct (symModalId w !! c) as [s|]; simpl;
      (match goal with
       | |- context [MODAL_REGISTRY w !! ?k] => destruct (MODAL_REGISTRY w !! k); simpl
       end;
       rewrite Hd; simpl;
       destruct (cfg_keepMounted config) as [[]|]; simpl; rewrite ?Hd; simpl;
       (split; [eexists; split; reflexivity |]);
       rewrite <- !app_assoc, !length_app; simpl;
       split_and!; try done; f_equal; lia).
Qed.

Lemma resolve_in_spec L id v w :
  resolve_in L id v w = (Ok tt, set_promises (resolve_opt (L w !! id) v) w).
Proof.
  unfold resolve_in, bind, gets, resolve, modify, ret; simpl.
  destruct (L w !! id); simpl; [done |]. by destruct w.
Qed.





Lemma settled_with_app w p v cell :
  settled_with w p = Some v →
  (promises w ++ [cell]) !! p ≫= id = Some v.
Proof.
  unfold settled_with. intros H.
  destruct (promises w !! p) as [c|] eqn:E; [| done].
  by rewrite (lookup_app_l_Some _ _ _ _ E).
Qed.





(* ================================================================== *)
(** ** [afterClosed] *)
(* ================================================================== *)



Lemma afterClosed_spec r w :
  ModalRefM.afterClosed r w =
  match closedPromises w !! ref_modalId r with
  | Some p => (Ok p, w)
  | None => (Ok (length (promises w)),
             set_promises (λ ps, ps ++ [Some VUndefined]) w)
  end.
Proof.
  unfold ModalRefM.afterClosed, bind, gets, ret, Promise_resolve; simpl.
  by destruct (closedPromises w !! ref_modalId r).
Qed.




(* ================================================================== *)
(** ** [removeModal] *)
(* ================================================================== *)



Lemma resolve_opt_hits v q ps :
  ps !! q = Some None ∨ ps !! q = Some (Some v) →
  resolve_opt (Some q) v ps !! q = Some (Some v).
Proof.
  intros [H|H]; simpl; [by apply resolve_cell_pending | by apply resolve_cell_keeps].
Qed.



(** *** The reads of [Proto] on an identifier that is no name of
    [Object.prototype] *)










(** [removeModal] on a name of [Object.prototype]: for the open modal
    ["constructor"] it fulfils the main promise, finds the inherited
    member in the close ledger and throws; the opened (1) and
    [beforeClosed] (2) promises stay pending and no ledger entry is
    erased. *)
Lemma removeModal_of_prototype_name_throws :
  let w0 := exec setDispatch initialWorld in
  let v := exec (openModal (ById "constructor") no_config) w0 in
  let v' := exec (Proto.removeModal (ById "constructor")) v in
  openedCallbacks v !! "constructor" = Some 1
  ∧ beforeClosedCallbacks v !! "constructor" = Some 2
  ∧ is_pending v 1 ∧ is_pending v 2
  ∧ returns (Proto.removeModal (ById "constructor")) v = false
  ∧ is_pending v' 1 ∧ is_pending v' 2
  ∧ modalStates v' !! "constructor" = Some open
  ∧ openedCallbacks v' !! "constructor" = Some 1.
Proof.
  intros w0 v v'. split_and!; vm_compute; reflexivity.
Qed.

(* ================================================================== *)
(** ** Calls on an identifier that is not in the store *)
(* ================================================================== *)




Lemma reducer_remove_absent am (state : ModalStore) id :
  state !! id = None → reducer am state (actions.remove id) = state.
Proof. intros H. unfold reducer; simpl. by apply delete_id. Qed.








(** [closeModal] and [removeModal] on a name of [Object.prototype]: for
    ["toString"], absent from the store, the [hide] action puts an entry
    into the store and [closeModal] throws at the inherited member of the
    main ledger; [removeModal] throws there too. *)
Lemma closeModal_of_prototype_name_throws :
  let w := exec setDispatch initialWorld in
  let v' := exec (Proto.closeModal (ById "toString")) w in
  store w !! "toString" = None
  ∧ returns (Proto.closeModal (ById "toString")) w = false
  ∧ store v' !! "toString" = Some {["isOpen" := VBool false]}
  ∧ modalStates v' !! "toString" = Some closing
  ∧ returns (Proto.removeModal (ById "toString")) w = false.
Proof.
  intros w v'. split_and!; vm_compute; reflexivity.
Qed.

(* ================================================================== *)
(** ** [closeAllModals] *)
(* ================================================================== *)










(* ================================================================== *)
(** ** Re-opening an identifier *)
(* ================================================================== *)

Lemma resolve_opt_length o v ps : length (resolve_opt o v ps) = length ps.
Proof. destruct o; simpl; [apply resolve_cell_length | done]. Qed.

Lemma shrink_bounded (f : gmap string nat → gmap string nat) (m : gmap string nat)
    (n : nat) :
  (∀ m, f m ⊆ m) → (∀ id p, m !! id = Some p → p < n) → ∀ id p, f m !! id = Some p → p < n.
Proof. intros Hf Hm id p E. apply (Hm id). eapply lookup_weaken; [exact E | apply Hf]. Qed.

Lemma insert_bounded (m : gmap string nat) k (q n n' : nat) :
  (q < n')%nat → (n ≤ n')%nat → (∀ id p, m !! id = Some p → p < n) →
  ∀ id p, <[k := q]> m !! id = Some p → p < n'.
Proof.
  intros Hq Hn Hm id p. rewrite lookup_insert. case_decide.
  - intros [= <-]. done.
  - intros E. specialize (Hm id p E). lia.
Qed.

Lemma bounded_run_op o : preserves bounded (run_op o).
Proof.
  apply (stable_run_op _ (λ _, True) True); try (by intros; assumption).
  - intros f Hf w (H1 & H2 & H3 & H4). split_and!; try done. simpl. by apply shrink_bounded.
  - intros f Hf w (H1 & H2 & H3 & H4). split_and!; try done. simpl. by apply shrink_bounded.
  - intros f Hf w (H1 & H2 & H3 & H4). split_and!; try done. simpl. by apply shrink_bounded.
  - intros f Hf w (H1 & H2 & H3 & H4). split_and!; try done. simpl. by apply shrink_bounded.
  - intros i v w (H1 & H2 & H3 & H4). unfold exec. rewrite resolve_in_spec.
    unfold bounded; simpl. by rewrite !resolve_opt_length.
  - intros i v w (H1 & H2 & H3 & H4). unfold exec. rewrite resolve_in_spec.
    unfold bounded; simpl. by rewrite !resolve_opt_length.
  - intros i v w (H1 & H2 & H3 & H4). unfold exec. rewrite resolve_in_spec.
    unfold bounded; simpl. by rewrite !resolve_opt_length.
  - intros i v w (H1 & H2 & H3 & H4). unfold exec. rewrite resolve_in_spec.
    unfold bounded; simpl. by rewrite !resolve_opt_length.
  - intros v w (H1 & H2 & H3 & H4). unfold exec, Promise_resolve, bounded; simpl.
    rewrite length_app; simpl.
    split_and!; intros i p E;
      [ specialize (H1 i p E) | specialize (H2 i p E)
      | specialize (H3 i p E) | specialize (H4 i p E) ]; lia.
  - intros i w (H1 & H2 & H3 & H4).
    unfold exec, close_promise, bind, gets, ret, createDeferredPromise, modify; simpl.
    destruct (hideModalCallbacks w !! i) eqn:E; simpl; [done |].
    unfold bounded; simpl. rewrite length_app; simpl.
    split_and!.
    + intros j p Ej. specialize (H1 j p Ej). lia.
    + eapply insert_bounded; [| | exact H2]; lia.
    + intros j p Ej. specialize (H3 j p Ej). lia.
    + intros j p Ej. specialize (H4 j p Ej). lia.
  - intros i _ w (H1 & H2 & H3 & H4).
    destruct (create_deferreds_spec i w) as (Hps & Hm & _ & Ho & Hb & Hh & _).
    unfold bounded. rewrite Hps, Hm, Ho, Hb, Hh, length_app; simpl.
    split_and!.
    + eapply insert_bounded; [| | exact H1]; lia.
    + intros j p Ej. specialize (H2 j p Ej). lia.
    + eapply insert_bounded; [| | exact H3]; lia.
    + eapply insert_bounded; [| | exact H4]; lia.
  - apply touches_only_all.
Qed.

Lemma bounded_reachable history : bounded (run history initialWorld).
Proof.
  apply (run_preserves bounded (λ _, True)).
  - intros o _. apply bounded_run_op.
  - by apply Forall_true.
  - unfold bounded, initialWorld; simpl. split_and!; intros i p; by rewrite lookup_empty.
Qed.

Lemma shrink_avoids_at (f : gmap string nat → gmap string nat) (m : gmap string nat) id p :
  (∀ m, f m ⊆ m) → (∀ i, i ≠ id → m !! i ≠ Some p) → ∀ i, i ≠ id → f m !! i ≠ Some p.
Proof.
  intros Hf Hm i Hi E. apply (Hm i Hi). eapply lookup_weaken; [exact E | apply Hf].
Qed.

Lemma insert_avoids_at (m : gmap string nat) k q id p :
  q ≠ p → (∀ i, i ≠ id → m !! i ≠ Some p) → ∀ i, i ≠ id → <[k := q]> m !! i ≠ Some p.
Proof.
  intros Hq Hm i Hi. rewrite lookup_insert. case_decide; [congruence | by apply Hm].
Qed.

Lemma held_only_at_run_op id p o : preserves (held_only_at id p) (run_op o).
Proof.
  apply (stable_run_op _ (λ _, True) True); try (by intros; assumption).
  - intros f Hf w (H0 & H1 & H2 & H3 & H4). split_and!; try done.
    simpl. by apply shrink_avoids_at.
  - intros f Hf w (H0 & H1 & H2 & H3 & H4). split_and!; try done.
    simpl. by apply shrink_avoids.
  - intros f Hf w (H0 & H1 & H2 & H3 & H4). split_and!; try done.
    simpl. by apply shrink_avoids_at.
  - intros f Hf w (H0 & H1 & H2 & H3 & H4). split_and!; try done.
    simpl. by apply shrink_avoids_at.
  - intros i v w (H0 & H1 & H2 & H3 & H4). unfold exec. rewrite resolve_in_spec.
    unfold held_only_at; simpl. by rewrite resolve_opt_length.
  - intros i v w (H0 & H1 & H2 & H3 & H4). unfold exec. rewrite resolve_in_spec.
    unfold held_only_at; simpl. by rewrite resolve_opt_length.
  - intros i v w (H0 & H1 & H2 & H3 & H4). unfold exec. rewrite resolve_in_spec.
    unfold held_only_at; simpl. by rewrite resolve_opt_length.
  - intros i v w (H0 & H1 & H2 & H3 & H4). unfold exec. rewrite resolve_in_spec.
    unfold held_only_at; simpl. by rewrite resolve_opt_length.
  - intros v w (H0 & H1 & H2 & H3 & H4). unfold exec, Promise_resolve, held_only_at; simpl.
    rewrite length_app; simpl. split_and!; try done. lia.
  - intros i w (H0 & H1 & H2 & H3 & H4).
    unfold exec, close_promise, bind, gets, ret, createDeferredPromise, modify; simpl.
    destruct (hideModalCallbacks w !! i) eqn:E; simpl; [done |].
    unfold held_only_at; simpl. rewrite length_app; simpl.
    split_and!; try done; [lia |]. apply insert_avoids; [lia | done].
  - intros i _ w (H0 & H1 & H2 & H3 & H4).
    destruct (create_deferreds_spec i w) as (Hps & Hm & _ & Ho & Hb & Hh & _).
    unfold held_only_at. rewrite Hps, Hm, Ho, Hb, Hh, length_app; simpl.
    split_and!; try done; [lia | | |]; apply insert_avoids_at; try done; lia.
  - apply touches_only_all.
Qed.

Lemma held_only_at_run id p ops w : held_only_at id p w → held_only_at id p (run ops w).
Proof.
  apply (run_preserves (held_only_at id p) (λ _, True)).
  - intros o _. apply held_only_at_run_op.
  - by apply Forall_true.
Qed.

Lemma openModal_holds_fresh modal config w p :
  bounded w → dispatchFn w = ProviderDispatch →
  let id := effective_id modal config w in
  let w1 := exec (openModal modal config) w in
  modalCallbacks w1 !! id = Some p ∨ closedPromises w1 !! id = Some p
  ∨ openedCallbacks w1 !! id = Some p ∨ beforeClosedCallbacks w1 !! id = Some p →
  held_only_at id p w1.
Proof.
  intros (B1 & B2 & B3 & B4) Hd id w1 Hprev.
  pose proof (openModal_spec modal config w Hd)
    as (_ & Hps & Hmc & Hcl & Hop & Hbc & Hh & _).
  fold id w1 in Hps, Hmc, Hcl, Hop, Hbc, Hh.
  set (n := length (promises w)) in *.
  assert (n ≤ p < n + 3) as Hp.
  { rewrite Hmc, Hcl, Hop, Hbc, !lookup_insert_eq in Hprev.
    destruct Hprev as [[= <-]|[[= <-]|[[= <-]|[= <-]]]]; lia. }
  unfold held_only_at. rewrite Hps, Hmc, Hop, Hbc, Hh, length_app; simpl.
  split_and!.
  - unfold n in Hp. lia.
  - intros i Hi. rewrite lookup_insert_ne by done. intros E.
    specialize (B1 i p E). unfold n in Hp. lia.
  - intros i E. specialize (B2 i p E). unfold n in Hp. lia.
  - intros i Hi. rewrite lookup_insert_ne by done. intros E.
    specialize (B3 i p E). unfold n in Hp. lia.
  - intros i Hi. rewrite lookup_insert_ne by done. intros E.
    specialize (B4 i p E). unfold n in Hp. lia.
Qed.

Lemma reopen_orphans modal config w p :
  dispatchFn w = ProviderDispatch →
  held_only_at (effective_id modal config w) p w →
  is_pending w p →
  orphan p (exec (openModal modal config) w).
Proof.
  intros Hd (H0 & H1 & H2 & H3 & H4) Hp.
  pose proof (openModal_spec modal config w Hd)
    as (_ & Hps & Hmc & _ & Hop & Hbc & Hh & _).
  set (id := effective_id modal config w) in *.
  unfold orphan. rewrite Hps, Hmc, Hop, Hbc, Hh.
  split_and!.
  - by apply lookup_app_l_Some.
  - intros i. rewrite lookup_insert. case_decide as Hi; [| by apply H1].
    intros [= E]. lia.
  - done.
  - intros i. rewrite lookup_insert. case_decide as Hi; [| by apply H3].
    intros [= E]. lia.
  - intros i. rewrite lookup_insert. case_decide as Hi; [| by apply H4].
    intros [= E]. lia.
Qed.

(** C10 (as amended).  Take any world reached from the initial one, open a
    modal, let anything happen, and open the same identifier again.  The
    second [openModal] puts three promises that did not exist before into
    the main and [afterClosed] slots, the opened slot and the
    [beforeClosed] slot of the identifier, all pending, and leaves the
    close ledger as it is.  A promise that the first [openModal] had put
    into one of the four slots and that is still pending at the moment of
    the second one is from then on held by none of the ledgers through
    which promises are resolved, and stays pending whatever is called
    afterwards. *)
Theorem reopen_replaces_deferreds_and_orphans_pending_ones
    history modal config between modal' config' p :
  let w0 := run history initialWorld in
  let id := effective_id modal config w0 in
  let w1 := exec (openModal modal config) w0 in
  let w2 := run between w1 in
  let w3 := exec (openModal modal' config') w2 in
  let n := length (promises w2) in
  dispatchFn w0 = ProviderDispatch →
  dispatchFn w2 = ProviderDispatch →
  effective_id modal' config' w2 = id →
  (modalCallbacks w1 !! id = Some p ∨ closedPromises w1 !! id = Some p
   ∨ openedCallbacks w1 !! id = Some p ∨ beforeClosedCallbacks w1 !! id = Some p) →
  is_pending w2 p →
  modalCallbacks w3 !! id = Some n
  ∧ closedPromises w3 !! id = Some n
  ∧ openedCallbacks w3 !! id = Some (S n)
  ∧ beforeClosedCallbacks w3 !! id = Some (S (S n))
  ∧ promises w2 !! n = None
  ∧ is_pending w3 n ∧ is_pending w3 (S n) ∧ is_pending w3 (S (S n))
  ∧ hideModalCallbacks w3 = hideModalCallbacks w2
  ∧ p < n
  ∧ (∀ ops, orphan p (run ops w3))
  ∧ (∀ ops, is_pending (run ops w3) p).
Proof.
  intros w0 id w1 w2 w3 n Hd0 Hd2 Hsame Hprev Hpend.
  assert (held_only_at id p w2) as Hheld.
  { apply held_only_at_run. apply openModal_holds_fresh; [apply bounded_reachable | done..]. }
  assert (orphan p w3) as Horph.
  { unfold w3. apply reopen_orphans; [done | by rewrite Hsame | done]. }
  pose proof (openModal_spec modal' config' w2 Hd2)
    as (_ & Hps & Hmc & Hcl & Hop & Hbc & Hhide & _).
  rewrite Hsame in Hmc, Hcl, Hop, Hbc. fold w3 n in Hps, Hmc, Hcl, Hop, Hbc.
  split_and!.
  - rewrite Hmc. apply lookup_insert_eq.
  - rewrite Hcl. apply lookup_insert_eq.
  - rewrite Hop. apply lookup_insert_eq.
  - rewrite Hbc. apply lookup_insert_eq.
  - by apply lookup_ge_None.
  - unfold is_pending. rewrite Hps. by apply list_lookup_middle.
  - unfold is_pending. rewrite Hps. rewrite lookup_app_r by (unfold n; lia).
    by replace (S n - length (promises w2)) with 1 by (unfold n; lia).
  - unfold is_pending. rewrite Hps. rewrite lookup_app_r by (unfold n; lia).
    by replace (S (S n) - length (promises w2)) with 2 by (unfold n; lia).
  - exact Hhide.
  - by destruct Hheld.
  - intros ops. by apply orphan_run.
  - intros ops. by destruct (orphan_run p ops w3 Horph).
Qed.

(** C10 for the main promise of a first [openModal("m")], re-opened after its enter animation. *)
Lemma reopen_replaces_deferreds_and_orphans_pending_ones_witness :
  let w0 := run [OSetDispatch] initialWorld in
  let w1 := exec (openModal (ById "m") no_config) w0 in
  let w2 := run [ONotifyOpened "m"] w1 in
  let w3 := exec (openModal (ById "m") no_config) w2 in
  (dispatchFn w0 = ProviderDispatch
   ∧ dispatchFn w2 = ProviderDispatch
   ∧ effective_id (ById "m") no_config w2 = effective_id (ById "m") no_config w0
   ∧ closedPromises w1 !! "m" = Some 0
   ∧ is_pending w2 0)
  ∧ closedPromises w3 !! "m" = Some 3
  ∧ (∀ ops, is_pending (run ops w3) 0).
Proof.
  intros w0 w1 w2 w3.
  assert (dispatchFn w0 = ProviderDispatch) as H1 by (vm_compute; reflexivity).
  assert (dispatchFn w2 = ProviderDispatch) as H2 by (vm_compute; reflexivity).
  assert (effective_id (ById "m") no_config w2 = effective_id (ById "m") no_config w0)
    as H3 by reflexivity.
  assert (closedPromises w1 !! "m" = Some 0) as H4 by (vm_compute; reflexivity).
  assert (is_pending w2 0) as H5 by (vm_compute; reflexivity).
  split; [by split_and! |].
  destruct (reopen_replaces_deferreds_and_orphans_pending_ones
              [OSetDispatch] (ById "m") no_config [ONotifyOpened "m"] (ById "m") no_config 0
              H1 H2 H3 (or_intror (or_introl H4)) H5)
    as (_ & Hc & _ & _ & _ & _ & _ & _ & _ & _ & _ & Hp).
  split; [exact Hc | exact Hp].
Defined.

(** C10, counterexample.  The modal ["m"] is opened and closed with
    [closeModal], which creates the close promise (3).  When ["m"] is
    opened again that promise is pending; the re-open leaves it in the
    close ledger, [closeModal] returns it again in the new cycle, and
    [removeModal] fulfils it. *)
Lemma reopen_keeps_previous_close_promise :
  let w0 := exec setDispatch initialWorld in
  let w1 := exec (openModal (ById "m") no_config) w0 in
  let w2 := exec (closeModal (ById "m")) w1 in
  let w3 := exec (openModal (ById "m") no_config) w2 in
  let w4 := exec (removeModal (ById "m")) w3 in
  promises w1 !! 3 = None
  ∧ fst (closeModal (ById "m") w1) = Ok 3
  ∧ is_pending w2 3
  ∧ is_pending w3 3
  ∧ hideModalCallbacks w3 !! "m" = Some 3
  ∧ fst (closeModal (ById "m") w3) = Ok 3
  ∧ settled_with w4 3 = Some VUndefined.
Proof. intros w0 w1 w2 w3 w4. split_and!; vm_compute; reflexivity. Qed.

(* ================================================================== *)
(** ** The repository's unit tests, replayed on the model *)
(* ================================================================== *)

(** tests/modal-lifecycle.test.tsx, "Reducer". *)
Example test_open_not_mounted :
  reducer ∅ initialState (actions.open "modal1" (VObj {["foo" := VStr "bar"]})) !! "modal1"
  = Some (<["modalId" := VStr "modal1"]>
           (<["data" := VObj {["foo" := VStr "bar"]}]>
             (<["isOpen" := VBool false]> {["delayOpen" := VBool true]}))).
Proof. vm_compute. reflexivity. Qed.

Example test_open_already_mounted :
  let state := reducer {["modal1" := true]} initialState (actions.open "modal1" VUndefined) in
  state !! "modal1" ≫= lookup "isOpen" = Some (VBool true)
  ∧ state !! "modal1" ≫= lookup "delayOpen" = Some (VBool false).
Proof. vm_compute. done. Qed.

Example test_close_sets_isOpen_false :
  let state : ModalStore :=
    {["modal1" := <["modalId" := VStr "modal1"]> {["isOpen" := VBool true]}]} in
  reducer ∅ state (actions.close "modal1") !! "modal1" ≫= lookup "isOpen"
  = Some (VBool false).
Proof. vm_compute. reflexivity. Qed.

Example test_close_nonexistent_same_state :
  reducerH ∅ [HStore ∅] 0 (actions.close "nonexistent") = ([HStore ∅], 0).
Proof. vm_compute. reflexivity. Qed.

Example test_remove_deletes :
  let state : ModalStore :=
    <["modal1" := <["modalId" := VStr "modal1"]> {["isOpen" := VBool false]}]>
      {["modal2" := <["modalId" := VStr "modal2"]> {["isOpen" := VBool true]}]} in
  reducer ∅ state (actions.remove "modal1") !! "modal1" = None
  ∧ is_Some (reducer ∅ state (actions.remove "modal1") !! "modal2").
Proof. split; [vm_compute; reflexivity | vm_compute; by eexists]. Qed.

Example test_setFlags_merges :
  let state : ModalStore :=
    {["modal1" := <["modalId" := VStr "modal1"]> {["isOpen" := VBool true]}]} in
  let newState := reducer ∅ state (actions.setFlags "modal1" {["keepMounted" := VBool true]}) in
  newState !! "modal1" ≫= lookup "keepMounted" = Some (VBool true)
  ∧ newState !! "modal1" ≫= lookup "isOpen" = Some (VBool true).
Proof. vm_compute. done. Qed.

Example test_setFlags_nonexistent_same_state :
  reducerH ∅ [HStore ∅] 0 (actions.setFlags "nonexistent" {["keepMounted" := VBool true]})
  = ([HStore ∅], 0).
Proof. vm_compute. reflexivity. Qed.

(** "API Functions". *)
Example test_getState_lifecycle :
  let w0 := exec setDispatch initialWorld in
  let r := opened_ref (ById "test") no_config w0 in
  let w1 := exec (openModal (ById "test") no_config) w0 in
  fst (ModalRefM.getState r w1) = Ok open
  ∧ fst (ModalRefM.getState r (exec (ModalRefM.close r VUndefined) w1)) = Ok closing.
Proof. vm_compute. done. Qed.

Example test_closeAll_dispatches_hide_for_all :
  let w := exec (openModal (ById "modal2") no_config)
             (exec (openModal (ById "modal1") no_config)
                (exec setDispatch initialWorld)) in
  length (filter (λ a, type a = T_HIDE) (dispatched (exec closeAllModals w))) = 2.
Proof. vm_compute. reflexivity. Qed.

Example test_open_without_provider_throws :
  returns (openModal (ById "test") no_config) initialWorld = false.
Proof. vm_compute. reflexivity. Qed.

(* ================================================================== *)
(** ** The registry *)
(* ================================================================== *)



(* ================================================================== *)
(** ** More on the reducer *)
(* ================================================================== *)

(** X3.  [show] puts its identifier into the store and [remove] takes it
    out.  [hide] and [set-flags] keep the set of identifiers, except for
    an identifier that names a member of [Object.prototype], which they
    add when the store does not own it; an unknown action keeps the set.
    Whatever the action, the entry of every identifier other than the
    action's own is left as it is. *)
Theorem reducer_adds_and_deletes_only_its_identifier am (state : ModalStore) action :
  let id := modalId (payload action) in
  dom (reducer am state action) =
    (if String.eqb (type action) T_SHOW then {[id]} ∪ dom state
     else if String.eqb (type action) T_HIDE then
       (if inherited id then {[id]} ∪ dom state else dom state)
     else if String.eqb (type action) T_REMOVE then dom state ∖ {[id]}
     else if String.eqb (type action) T_SET_FLAGS then
       (if inherited id then {[id]} ∪ dom state else dom state)
     else dom state)
  ∧ ∀ i, i ≠ id → reducer am state action !! i = state !! i.
Proof.
  intros id. unfold reducer. fold id.
  assert (∀ e : ModalState,
            dom (<[id := e]> state)
            = (if inherited id then {[id]} ∪ dom state else dom state)
            ∨ state !! id = None ∧ inherited id = false) as Hdom.
  { intros e. rewrite dom_insert_L. destruct (inherited id); [by left |].
    destruct (state !! id) as [e0|] eqn:E; [left | by right].
    apply subseteq_union_1_L, singleton_subseteq_l. apply elem_of_dom; eauto. }
  assert (∀ f : ModalState → ModalState,
            dom (match store_get state id with
                 | Some e => <[id := f e]> state
                 | None => state
                 end)
            = (if inherited id then {[id]} ∪ dom state else dom state)
            ∧ ∀ i, i ≠ id →
                match store_get state id with
                | Some e => <[id := f e]> state
                | None => state
                end !! i = state !! i) as Hguard.
  { intros f. unfold store_get.
    destruct (state !! id) as [e|] eqn:E.
    - split; [| intros i Hi; by rewrite lookup_insert_ne].
      destruct (Hdom (f e)) as [H | [H _]]; [done | congruence].
    - destruct (inherited id) eqn:Hi.
      + split; [apply dom_insert_L | intros i Hne; by rewrite lookup_insert_ne].
      + by split. }
  destruct (String.eqb (type action) T_SHOW).
  { split; [apply dom_insert_L | intros i Hi; by rewrite lookup_insert_ne]. }
  destruct (String.eqb (type action) T_HIDE); [apply Hguard |].
  destruct (String.eqb (type action) T_REMOVE).
  { split; [apply dom_delete_L | intros i Hi; by rewrite lookup_delete_ne]. }
  destruct (String.eqb (type action) T_SET_FLAGS); [| done].
  apply (Hguard (λ e, flags_entry e (flags (payload action)))).
Qed.

(** X4.  Every action is idempotent on the contents of the store:
    applying the same action a second time, with the same mounted table,
    yields the store the first application produced. *)
Theorem reducer_action_idempotent am (state : ModalStore) action :
  reducer am (reducer am state action) action = reducer am state action.
Proof.
  unfold reducer. set (id := modalId (payload action)).
  destruct (String.eqb (type action) T_SHOW) eqn:E1.
  { rewrite lookup_insert_eq, insert_insert_eq. f_equal.
    unfold show_entry; simpl.
    apply map_eq; intros k. rewrite !lookup_insert.
    repeat case_decide; try done; congruence. }
  destruct (String.eqb (type action) T_HIDE) eqn:E2.
  { destruct (store_get state id) as [e|] eqn:E; [| by rewrite E].
    rewrite (store_get_own _ id (hide_entry e)) by apply lookup_insert_eq.
    rewrite insert_insert_eq. f_equal.
    unfold hide_entry. apply insert_insert_eq. }
  destruct (String.eqb (type action) T_REMOVE) eqn:E3.
  { apply delete_id, lookup_delete_eq. }
  destruct (String.eqb (type action) T_SET_FLAGS) eqn:E4; [| done].
  destruct (store_get state id) as [e|] eqn:E; [| by rewrite E].
  rewrite (store_get_own _ id (flags_entry e (flags (payload action))))
    by apply lookup_insert_eq.
  rewrite insert_insert_eq. f_equal.
  unfold flags_entry. rewrite (assoc_L (∪)). f_equal. apply (idemp_L (∪)).
Qed.

(* ================================================================== *)
(** ** Calls before a provider is installed *)
(* ================================================================== *)



(* ================================================================== *)
(** ** What [openModal] leaves in the store, and the hooks that read it *)
(* ================================================================== *)

Lemma openModal_store id config w :
  dispatchFn w = ProviderDispatch → cfg_modalId config = None →
  let w' := exec (openModal (ById id) config) w in
  let shown := reducer (ALREADY_MOUNTED w) (store w) (actions.open id (VObj (data_of config))) in
  fst (openModal (ById id) config w)
    = Ok (mkRef id (cfg_data config) (data_of config) (default false (cfg_disableClose config)))
  ∧ store w' =
      match cfg_keepMounted config with
      | Some true =>
          reducer (ALREADY_MOUNTED w) shown
            (actions.setFlags id {["keepMounted" := VBool true]})
      | _ => shown
      end
  ∧ dispatched w' =
      dispatched w ++ actions.open id (VObj (data_of config)) ::
      match cfg_keepMounted config with
      | Some true => [actions.setFlags id {["keepMounted" := VBool true]}]
      | _ => []
      end
  ∧ ALREADY_MOUNTED w' = ALREADY_MOUNTED w
  ∧ dispatchFn w' = ProviderDispatch.
Proof.
  intros Hd Hc. unfold exec, openModal, create_deferreds, createDeferredPromise,
    getModalId, dispatch, bind, gets, modify, ret.
  rewrite Hc. simpl. rewrite Hd. simpl.
  destruct (cfg_keepMounted config) as [[]|] eqn:Ek; simpl; rewrite ?Hd; simpl;
    unfold data_of, modal_config_of; rewrite ?Ek; simpl;
    split_and!; try done; by rewrite <- app_assoc.
Qed.

Lemma shown_entry am (state : ModalStore) id d :
  reducer am state (actions.open id d) !! id = Some (show_entry am (state !! id) id d).
Proof. unfold reducer; simpl. apply lookup_insert_eq. Qed.

Lemma flagged_entry am (state : ModalStore) id fl e :
  state !! id = Some e →
  reducer am state (actions.setFlags id fl) !! id = Some (fl ∪ e).
Proof.
  intros E. unfold reducer; simpl. rewrite (store_get_own _ _ _ E). apply lookup_insert_eq.
Qed.

(** The entry of [id] after [openModal(id, config)]. *)
Lemma openModal_entry id config w :
  dispatchFn w = ProviderDispatch → cfg_modalId config = None →
  let w' := exec (openModal (ById id) config) w in
  let e := show_entry (ALREADY_MOUNTED w) (store w !! id) id (VObj (data_of config)) in
  store w' !! id =
    Some (match cfg_keepMounted config with
          | Some true => {["keepMounted" := VBool true]} ∪ e
          | _ => e
          end).
Proof.
  intros Hd Hc w' e.
  destruct (openModal_store id config w Hd Hc) as (_ & Hs & _). fold w' in Hs. rewrite Hs.
  destruct (cfg_keepMounted config) as [[]|].
  - erewrite flagged_entry; [done | apply shown_entry].
  - apply shown_entry.
  - apply shown_entry.
Qed.

(** X6.  What is put in comes out: after [openModal(id, config)] with a
    provider installed, [useModalData] inside the modal returns the
    caller's data without the internal key, [useModalConfig] returns
    [disableClose] (false unless given) and [keepMounted] as passed, the
    entry's [isOpen] is the mounted flag of [id], and its [keepMounted]
    flag is set if the config asks for it or if it was set before:
    [openModal] can switch the flag on, never off.  The dispatched actions
    are one [show], followed by one [set-flags] exactly when
    [keepMounted] is true. *)
Theorem openModal_data_round_trip id config w
    (Hd : dispatchFn w = ProviderDispatch)
    (Hc : cfg_modalId config = None)
    (Hid : id ≠ "") :
  let w' := exec (openModal (ById id) config) w in
  useModalData (store w') (Some id) = Ok (Some (user_data (cfg_data config)))
  ∧ (∀ d, cfg_data config = Some d → d !! MODAL_CONFIG_KEY = None →
          useModalData (store w') (Some id) = Ok (Some d))
  ∧ useModalConfig (store w') (Some id) = Ok (VObj (modal_config_of config))
  ∧ truthy_field (store w' !! id) "isOpen" = already_mounted (ALREADY_MOUNTED w) id
  ∧ truthy_field (store w' !! id) "delayOpen" = negb (already_mounted (ALREADY_MOUNTED w) id)
  ∧ truthy_field (store w' !! id) "keepMounted"
    = match cfg_keepMounted config with
      | Some true => true
      | _ => truthy_field (store w !! id) "keepMounted"
      end
  ∧ dispatched w' =
      dispatched w ++ actions.open id (VObj (data_of config)) ::
      match cfg_keepMounted config with
      | Some true => [actions.setFlags id {["keepMounted" := VBool true]}]
      | _ => []
      end.
Proof.
  intros w'.
  pose proof (openModal_entry id config w Hd Hc) as He. fold w' in He. cbv zeta in He.
  destruct (openModal_store id config w Hd Hc) as (_ & _ & Hdis & _). fold w' in Hdis.
  set (e := show_entry (ALREADY_MOUNTED w) (store w !! id) id (VObj (data_of config))) in *.
  assert (String.eqb id "" = false) as Hne by by apply String.eqb_neq.
  assert (∀ k, k ≠ "keepMounted" →
            (store w' !! id) ≫= lookup k = e !! k) as Hk.
  { intros k Hkm. rewrite He. destruct (cfg_keepMounted config) as [[]|]; simpl; try done.
    rewrite lookup_union_r; [done |]. by rewrite lookup_singleton_ne. }
  assert (e !! "data" = Some (VObj (data_of config))) as Edata.
  { unfold e, show_entry. by rewrite !lookup_insert_ne, lookup_insert_eq by done. }
  assert (useModalData (store w') (Some id) = Ok (Some (user_data (cfg_data config)))) as Hud.
  { unfold useModalData. rewrite Hne, Hk, Edata by done.
    unfold user_data, data_of. by rewrite delete_insert_eq. }
  split_and!.
  - exact Hud.
  - intros d Hdd Hnone. rewrite Hud. unfold user_data. rewrite Hdd; simpl.
    by rewrite delete_id.
  - unfold useModalConfig. rewrite Hne, Hk, Edata by done.
    unfold data_of. by rewrite lookup_insert_eq.
  - unfold truthy_field. specialize (Hk "isOpen"). rewrite He in *.
    assert (e !! "isOpen" = Some (VBool (already_mounted (ALREADY_MOUNTED w) id))) as Ei.
    { unfold e, show_entry. by rewrite !lookup_insert_ne, lookup_insert_eq by done. }
    simpl in Hk. rewrite Hk, Ei by done. done.
  - unfold truthy_field. specialize (Hk "delayOpen"). rewrite He in *.
    assert (e !! "delayOpen"
            = Some (VBool (negb (already_mounted (ALREADY_MOUNTED w) id)))) as Ei.
    { unfold e, show_entry. by rewrite lookup_insert_eq. }
    simpl in Hk. rewrite Hk, Ei by done. done.
  - rewrite He. unfold truthy_field.
    assert (e !! "keepMounted" = store w !! id ≫= lookup "keepMounted") as Ekm.
    { unfold e, show_entry. rewrite !lookup_insert_ne by done.
      destruct (store w !! id); simpl; [done | apply lookup_empty]. }
    destruct (cfg_keepMounted config) as [[]|].
    + rewrite lookup_union_l', lookup_singleton_eq; [done |]. by rewrite lookup_singleton_eq.
    + rewrite Ekm. by destruct (store w !! id).
    + rewrite Ekm. by destruct (store w !! id).
  - exact Hdis.
Qed.

(** X6 with concrete data. *)
Lemma openModal_data_round_trip_witness :
  let w := exec setDispatch initialWorld in
  let config := mkConfig (Some {["userId" := VStr "123"]}) (Some true) None None in
  let w' := exec (openModal (ById "m") config) w in
  (dispatchFn w = ProviderDispatch ∧ cfg_modalId config = None ∧ "m" ≠ "")
  ∧ useModalData (store w') (Some "m") = Ok (Some {["userId" := VStr "123"]})
  ∧ truthy_field (store w' !! "m") "keepMounted" = true.
Proof.
  intros w config w'.
  assert (dispatchFn w = ProviderDispatch) as H1 by (vm_compute; reflexivity).
  assert (cfg_modalId config = None) as H2 by reflexivity.
  assert ("m" ≠ "") as H3 by discriminate.
  split; [by split_and! |].
  destruct (openModal_data_round_trip "m" config w H1 H2 H3) as (_ & Hu & _ & _ & _ & Hk & _).
  split; [| exact Hk]. apply Hu; [reflexivity | vm_compute; reflexivity].
Defined.

(* ================================================================== *)
(** ** The reference's [disableClose] setter and [updateData] *)
(* ================================================================== *)

Lemma useModalData_of_entry (state : ModalStore) id e d :
  id ≠ "" → state !! id = Some e → e !! "data" = Some (VObj d) →
  useModalData state (Some id) = Ok (Some (delete MODAL_CONFIG_KEY d))
  ∧ useModalConfig state (Some id)
    = Ok (match d !! MODAL_CONFIG_KEY with
          | Some VUndefined | None => VObj ∅
          | Some c => c
          end).
Proof.
  intros Hid He Hd. apply String.eqb_neq in Hid.
  unfold useModalData, useModalConfig. rewrite Hid, He; simpl. rewrite Hd.
  split; [done |]. by destruct (d !! MODAL_CONFIG_KEY) as [[]|].
Qed.

(** X7.  The setter of [ref.disableClose] writes the new value into the
    configuration the modal reads through [useModalConfig] and leaves the
    user data alone, provided the modal has a store entry.  It does not
    write it into the data object the reference keeps: a later
    [updateData] merges the new fields over the user data (new fields win)
    and sends the kept object again, so the configuration in the store is
    once more the one from [openModal], while the reference's getter
    still answers the value set. *)
Theorem setter_then_updateData r v nd c e w
    (Hd : dispatchFn w = ProviderDispatch)
    (Hid : ref_modalId r ≠ "")
    (Hc : ref_local_data r !! MODAL_CONFIG_KEY = Some (VObj c))
    (He : store w !! ref_modalId r = Some e)
    (Hnd : nd !! MODAL_CONFIG_KEY = None) :
  let id := ref_modalId r in
  let r1 := mkRef id (ref_data r) (ref_local_data r) v in
  let w1 := exec (ModalRefM.set_disableClose r v) w in
  let r2 := mkRef id (ref_data r) (nd ∪ ref_local_data r) v in
  let w2 := exec (ModalRefM.updateData r1 nd) w1 in
  fst (ModalRefM.set_disableClose r v w) = Ok r1
  ∧ useModalConfig (store w1) (Some id) = Ok (VObj (<["disableClose" := VBool v]> c))
  ∧ useModalData (store w1) (Some id) = Ok (Some (delete MODAL_CONFIG_KEY (ref_local_data r)))
  ∧ fst (ModalRefM.updateData r1 nd w1) = Ok r2
  ∧ useModalConfig (store w2) (Some id) = Ok (VObj c)
  ∧ useModalData (store w2) (Some id)
    = Ok (Some (nd ∪ delete MODAL_CONFIG_KEY (ref_local_data r))).
Proof.
  intros id r1 w1 r2 w2.
  assert (fst (ModalRefM.set_disableClose r v w) = Ok r1
          ∧ dispatchFn w1 = ProviderDispatch
          ∧ store w1 !! id
            = Some ({["data" := VObj (<[MODAL_CONFIG_KEY := VObj (<["disableClose" := VBool v]> c)]>
                                        (ref_local_data r))]} ∪ e)) as (F1 & D1 & S1).
  { unfold w1, exec, ModalRefM.set_disableClose, dispatch, bind, gets, modify, ret.
    rewrite Hc, Hd. simpl. split_and!; try done.
    fold id. unfold reducer; simpl. fold id in He. rewrite (store_get_own _ _ _ He).
    apply lookup_insert_eq. }
  assert (fst (ModalRefM.updateData r1 nd w1) = Ok r2
          ∧ store w2 !! id
            = Some (show_entry (ALREADY_MOUNTED w1) (store w1 !! id) id
                      (VObj (nd ∪ ref_local_data r)))) as (F2 & S2).
  { unfold w2, exec, ModalRefM.updateData, dispatch, bind, gets, modify, ret.
    rewrite D1. simpl. split; [done |]. unfold reducer; simpl. apply lookup_insert_eq. }
  destruct (useModalData_of_entry (store w1) id _
              (<[MODAL_CONFIG_KEY := VObj (<["disableClose" := VBool v]> c)]> (ref_local_data r))
              Hid S1) as [U1 C1].
  { rewrite lookup_union_l', lookup_singleton_eq; [done |]. by rewrite lookup_singleton_eq. }
  destruct (useModalData_of_entry (store w2) id _ (nd ∪ ref_local_data r) Hid S2) as [U2 C2].
  { unfold show_entry. by rewrite !lookup_insert_ne, lookup_insert_eq by done. }
  split_and!.
  - exact F1.
  - rewrite C1. by rewrite lookup_insert_eq.
  - rewrite U1. by rewrite delete_insert_eq.
  - exact F2.
  - rewrite C2. rewrite lookup_union_r by done. rewrite Hc. done.
  - rewrite U2. f_equal; f_equal. rewrite delete_union. f_equal. by apply delete_id.
Qed.

(** X7 on a modal opened with [disableClose] unset: after
    [ref.disableClose = true] and [ref.updateData({step: 2})] the reference
    says [true] and the store says [false]. *)
Lemma setter_then_updateData_witness :
  let w := exec (openModal (ById "m") (mkConfig (Some {["step" := VNum 1]}) None None None))
             (exec setDispatch initialWorld) in
  let r := mkRef "m" (Some {["step" := VNum 1]})
             (data_of (mkConfig (Some {["step" := VNum 1]}) None None None)) false in
  let r1 := mkRef "m" (ref_data r) (ref_local_data r) true in
  let w2 := exec (ModalRefM.updateData r1 {["step" := VNum 2]})
              (exec (ModalRefM.set_disableClose r true) w) in
  ref_disableClose r1 = true
  ∧ useModalConfig (store w2) (Some "m")
    = Ok (VObj (modal_config_of (mkConfig (Some {["step" := VNum 1]}) None None None)))
  ∧ useModalData (store w2) (Some "m")
    = Ok (Some ({["step" := VNum 2]} ∪ delete MODAL_CONFIG_KEY (ref_local_data r))).
Proof.
  intros w r r1 w2.
  assert (dispatchFn w = ProviderDispatch) as H1 by (vm_compute; reflexivity).
  assert (ref_modalId r ≠ "") as H2 by discriminate.
  assert (ref_local_data r !! MODAL_CONFIG_KEY
          = Some (VObj (modal_config_of (mkConfig (Some {["step" := VNum 1]}) None None None))))
    as H3 by (vm_compute; reflexivity).
  assert (is_Some (store w !! ref_modalId r)) as [e H4] by (vm_compute; eauto).
  assert (({["step" := VNum 2]} : gmap string value) !! MODAL_CONFIG_KEY = None) as H5
    by (vm_compute; reflexivity).
  destruct (setter_then_updateData r true _ _ e w H1 H2 H3 H4 H5) as (_ & _ & _ & _ & C & U).
  split_and!; [reflexivity | exact C | exact U].
Defined.

(* ================================================================== *)
(** ** Cleanup without settling *)
(* ================================================================== *)





(* ================================================================== *)
(** ** [afterOpened] and [notifyOpened] *)
(* ================================================================== *)




(* ================================================================== *)
(** ** Closing through the hook and the [beforeClosed] promise *)
(* ================================================================== *)

Lemma hook_close_unfold id v w :
  let w0 := set_modalCallbacks (delete id)
              (set_promises (resolve_opt (modalCallbacks w !! id) v) w) in
  exec (useModal.close id v) w = exec (closeModal (ById id)) w0
  ∧ returns (useModal.close id v) w = returns (closeModal (ById id)) w0.
Proof.
  intros w0. unfold useModal.close, exec, returns, bind, modify.
  rewrite resolve_in_spec. simpl. fold w0.
  by destruct (closeModal (ById id) w0) as [[?|?] ?].
Qed.



(* ================================================================== *)
(** ** The end of the closing animation *)
(* ================================================================== *)





(* ================================================================== *)
(** ** A modal opened before its component is mounted *)
(* ================================================================== *)

Lemma hook_open_unfold id d w :
  dispatchFn w = ProviderDispatch →
  useModal.open_ id d w
  = (Ok (length (promises w)), exec (openModal (ById id) (mkConfig d None None None)) w).
Proof.
  intros Hd. set (config := mkConfig d None None None).
  destruct (openModal_store id config w Hd eq_refl) as (Hr & _).
  pose proof (openModal_spec (ById id) config w Hd) as (_ & _ & _ & Hcl & _).
  unfold useModal.open_, bind. fold config. unfold exec in *.
  destruct (openModal (ById id) config w) as [res w1] eqn:E. simpl in *.
  rewrite Hr. rewrite afterClosed_spec. simpl. rewrite Hcl.
  change (effective_id (ById id) config w) with id. by rewrite lookup_insert_eq.
Qed.

Lemma delayOpen_effect_unfold id e d w :
  dispatchFn w = ProviderDispatch →
  store w !! id = Some e →
  truthy_field (Some e) "delayOpen" = true →
  e !! "data" = Some (VObj d) →
  exec (createModal.delayOpen_effect id) w
  = exec (openModal (ById id) (mkConfig (Some d) None None None)) w.
Proof.
  intros Hd He Ht Hdata. unfold createModal.delayOpen_effect, exec, bind, gets.
  rewrite He, Ht. simpl. rewrite Hdata. by rewrite hook_open_unfold.
Qed.

(** X12.  A modal opened while its component is not mounted is stored
    with [isOpen] false and [delayOpen] true.  When the component mounts
    and its delayed-open effect runs, the modal is opened a second time
    through the hook with the data then in the store.  Afterwards [isOpen]
    is true and [delayOpen] false, the user data and the entry's
    [keepMounted] flag are those of the first call, but the configuration
    read by [useModalConfig] is the default one: a [disableClose] passed
    to [openModal] is gone.  The promise that [afterClosed] returned
    before the mount is no longer in any ledger: it stays pending whatever
    is called afterwards, and [afterClosed] now returns another one. *)
Theorem delayed_open_redispatch id config w
    (Hd : dispatchFn w = ProviderDispatch)
    (Hc : cfg_modalId config = None)
    (Hid : id ≠ "")
    (Hnm : already_mounted (ALREADY_MOUNTED w) id = false)
    (Hbd : bounded w) :
  let p := length (promises w) in
  let w1 := exec (openModal (ById id) config) w in
  let w2 := exec (createModal.mount id false) w1 in
  let w3 := exec (createModal.delayOpen_effect id) w2 in
  truthy_field (store w1 !! id) "isOpen" = false
  ∧ truthy_field (store w1 !! id) "delayOpen" = true
  ∧ closedPromises w1 !! id = Some p
  ∧ truthy_field (store w3 !! id) "isOpen" = true
  ∧ truthy_field (store w3 !! id) "delayOpen" = false
  ∧ useModalData (store w3) (Some id) = Ok (Some (user_data (cfg_data config)))
  ∧ useModalConfig (store w3) (Some id) = Ok (VObj (modal_config_of no_config))
  ∧ truthy_field (store w3 !! id) "keepMounted" = truthy_field (store w1 !! id) "keepMounted"
  ∧ closedPromises w3 !! id = Some (p + 3)
  ∧ (∀ ops, orphan p (run ops w3)).
Proof.
  intros p w1 w2 w3.
  pose proof (openModal_entry id config w Hd Hc) as He1. fold w1 in He1. cbv zeta in He1.
  destruct (openModal_store id config w Hd Hc) as (_ & _ & _ & Ham1 & Hd1). fold w1 in Ham1, Hd1.
  pose proof (openModal_spec (ById id) config w Hd) as (_ & Hps1 & Hmc1 & Hcl1 & _).
  fold w1 p in Hps1, Hmc1, Hcl1.
  assert (effective_id (ById id) config w = id) as Heff by (unfold effective_id; by rewrite Hc).
  rewrite Heff in *.
  set (e0 := show_entry (ALREADY_MOUNTED w) (store w !! id) id (VObj (data_of config))) in *.
  assert (e0 !! "data" = Some (VObj (data_of config))) as E0data.
  { unfold e0, show_entry. by rewrite !lookup_insert_ne, lookup_insert_eq by done. }
  assert (e0 !! "isOpen" = Some (VBool false)) as E0open.
  { unfold e0, show_entry. rewrite Hnm. by rewrite !lookup_insert_ne, lookup_insert_eq by done. }
  assert (e0 !! "delayOpen" = Some (VBool true)) as E0delay.
  { unfold e0, show_entry. rewrite Hnm. by rewrite lookup_insert_eq. }
  (* the entry after the first call *)
  assert (∃ e1, store w1 !! id = Some e1
                ∧ (∀ k, k ≠ "keepMounted" → e1 !! k = e0 !! k)) as (e1 & He1' & Hk1).
  { rewrite He1. destruct (cfg_keepMounted config) as [[]|]; eexists; (split; [reflexivity |]);
      intros k Hk; try done.
    rewrite lookup_union_r; [done |]. by rewrite lookup_singleton_ne. }
  (* mounting *)
  assert (w2 = set_ALREADY_MOUNTED <[id := true]> w1) as E2 by reflexivity.
  assert (dispatchFn w2 = ProviderDispatch) as Hd2 by (rewrite E2; exact Hd1).
  assert (store w2 !! id = Some e1) as He2 by (rewrite E2; exact He1').
  (* the effect *)
  assert (w3 = exec (openModal (ById id) (mkConfig (Some (data_of config)) None None None)) w2)
    as E3.
  { apply (delayOpen_effect_unfold id e1); [done | done | |].
    - unfold truthy_field. by rewrite Hk1, E0delay.
    - by rewrite Hk1. }
  set (config2 := mkConfig (Some (data_of config)) None None None) in *.
  pose proof (openModal_entry id config2 w2 Hd2 eq_refl) as He3.
  cbv zeta in He3. rewrite <- E3 in He3.
  change (cfg_keepMounted config2) with (@None bool) in He3. cbv beta iota in He3.
  rewrite He2 in He3.
  change (ALREADY_MOUNTED w2) with (<[id := true]> (ALREADY_MOUNTED w1)) in He3.
  set (e3 := show_entry (<[id := true]> (ALREADY_MOUNTED w1)) (Some e1) id
               (VObj (data_of config2))) in *.
  assert (already_mounted (<[id := true]> (ALREADY_MOUNTED w1)) id = true) as Hm2.
  { unfold already_mounted. by rewrite lookup_insert_eq. }
  pose proof (openModal_spec (ById id) config2 w2 Hd2) as (_ & Hps3 & _ & Hcl3 & _).
  rewrite <- E3 in Hps3, Hcl3.
  change (effective_id (ById id) config2 w2) with id in Hcl3.
  assert (length (promises w2) = p + 3) as Hlen.
  { rewrite E2. simpl. rewrite Hps1, length_app. simpl. unfold p. lia. }
  assert (data_of config2
          = <[MODAL_CONFIG_KEY := VObj (modal_config_of no_config)]> (default ∅ (cfg_data config)))
    as Hdata2.
  { unfold data_of at 1. simpl. unfold data_of. by rewrite insert_insert_eq. }
  destruct (useModalData_of_entry (store w3) id e3 (data_of config2) Hid He3) as [U3 C3].
  { unfold e3, show_entry. by rewrite !lookup_insert_ne, lookup_insert_eq by done. }
  split_and!.
  - rewrite He1'. unfold truthy_field. by rewrite Hk1, E0open.
  - rewrite He1'. unfold truthy_field. by rewrite Hk1, E0delay.
  - rewrite Hcl1. apply lookup_insert_eq.
  - rewrite He3. unfold truthy_field, e3, show_entry.
    rewrite !lookup_insert_ne, lookup_insert_eq by done. by rewrite Hm2.
  - rewrite He3. unfold truthy_field, e3, show_entry.
    rewrite lookup_insert_eq. by rewrite Hm2.
  - rewrite U3, Hdata2. unfold user_data. by rewrite delete_insert_eq.
  - rewrite C3, Hdata2. by rewrite lookup_insert_eq.
  - rewrite He3, He1'. unfold truthy_field, e3, show_entry.
    by rewrite !lookup_insert_ne by done.
  - rewrite Hcl3, lookup_insert_eq, Hlen. done.
  - intros ops. apply orphan_run. rewrite E3.
    assert (held_only_at id p w1) as Hheld.
    { pose proof (openModal_holds_fresh (ById id) config w p Hbd Hd) as H.
      cbv zeta in H. rewrite Heff in H. fold w1 in H. apply H. left.
      rewrite Hmc1. apply lookup_insert_eq. }
    apply reopen_orphans; [exact Hd2 | |].
    + change (effective_id (ById id) config2 w2) with id.
      rewrite E2. exact Hheld.
    + rewrite E2. unfold is_pending. simpl. rewrite Hps1. unfold p.
      by apply list_lookup_middle.
Qed.

(** X12 with [disableClose: true] and some data. *)
Lemma delayed_open_redispatch_witness :
  let config := mkConfig (Some {["userId" := VStr "123"]}) None None (Some true) in
  let w := exec setDispatch initialWorld in
  let w1 := exec (openModal (ById "m") config) w in
  let w3 := exec (createModal.delayOpen_effect "m") (exec (createModal.mount "m" false) w1) in
  (dispatchFn w = ProviderDispatch ∧ cfg_modalId config = None ∧ "m" ≠ ""
   ∧ already_mounted (ALREADY_MOUNTED w) "m" = false ∧ bounded w)
  ∧ useModalConfig (store w1) (Some "m") = Ok (VObj (modal_config_of config))
  ∧ useModalConfig (store w3) (Some "m") = Ok (VObj (modal_config_of no_config))
  ∧ (∀ ops, orphan (length (promises w)) (run ops w3)).
Proof.
  intros config w w1 w3.
  assert (dispatchFn w = ProviderDispatch) as H1 by (vm_compute; reflexivity).
  assert (cfg_modalId config = None) as H2 by reflexivity.
  assert ("m" ≠ "") as H3 by discriminate.
  assert (already_mounted (ALREADY_MOUNTED w) "m" = false) as H4 by (vm_compute; reflexivity).
  assert (bounded w) as H5 by apply (bounded_reachable [OSetDispatch]).
  split; [by split_and! |].
  destruct (delayed_open_redispatch "m" config w H1 H2 H3 H4 H5)
    as (_ & _ & _ & _ & _ & _ & C & _ & _ & O).
  split_and!; [vm_compute; reflexivity | exact C | exact O].
Defined.

(* ================================================================== *)
(** ** The cleanup timer of [markClosed] *)
(* ================================================================== *)




(* ================================================================== *)
(** ** Identifiers of components *)
(* ================================================================== *)

Lemma getModalId_untagged c w :
  symModalId w !! c = None →
  getModalId (ByComponent c) w
  = (Ok (uid_string (uidSeed w)),
     set_symModalId <[c := uid_string (uidSeed w)]> (set_uidSeed js_incr w)).
Proof.
  intros Hc. unfold getModalId, bind, gets. rewrite Hc. reflexivity.
Qed.

Lemma getModalId_tagged c s w :
  symModalId w !! c = Some s → getModalId (ByComponent c) w = (Ok s, w).
Proof.
  intros Hc. unfold getModalId, bind, gets, ret. by rewrite Hc.
Qed.

(** X14.  [getModalId] gives a component that has no identifier yet the
    next generated one and stores it on the component; every later call
    for that component returns the stored identifier and changes nothing,
    so the counter advances once per component.  Two components first
    seen one after the other get different identifiers while the counter
    counts exactly.  After [resetUidSeed], however, a component seen for
    the first time is given the identifier [_modal_0] again, also when an
    earlier component still carries it.  A string is returned as it is. *)
Theorem getModalId_tags_component_once c c' w
    (Hc : symModalId w !! c = None)
    (Hc' : symModalId w !! c' = None)
    (Hne : c ≠ c')
    (Hexact : (uidSeed w < MAX_EXACT)%N) :
  let s := uid_string (uidSeed w) in
  let w1 := exec (getModalId (ByComponent c)) w in
  fst (getModalId (ByComponent c) w) = Ok s
  ∧ uidSeed w1 = (uidSeed w + 1)%N
  ∧ getModalId (ByComponent c) w1 = (Ok s, w1)
  ∧ (∃ s', fst (getModalId (ByComponent c') w1) = Ok s' ∧ s' ≠ s)
  ∧ (uidSeed w = 0%N →
       fst (getModalId (ByComponent c') (exec resetUidSeed w1)) = Ok s
       ∧ symModalId (exec resetUidSeed w1) !! c = Some s)
  ∧ (∀ t w0, getModalId (ById t) w0 = (Ok t, w0)).
Proof.
  intros s w1.
  assert (w1 = set_symModalId <[c := s]> (set_uidSeed js_incr w)) as E1.
  { unfold w1, exec. by rewrite getModalId_untagged. }
  assert (symModalId w1 !! c = Some s) as Hs by (rewrite E1; apply lookup_insert_eq).
  assert (symModalId w1 !! c' = None) as Hn'.
  { rewrite E1. simpl. by rewrite lookup_insert_ne. }
  assert (uidSeed w1 = (uidSeed w + 1)%N) as Hseed.
  { rewrite E1. simpl. by apply js_incr_exact. }
  split_and!.
  - by rewrite getModalId_untagged.
  - exact Hseed.
  - by apply getModalId_tagged.
  - eexists. rewrite getModalId_untagged by exact Hn'. split; [reflexivity |].
    intros E%uid_string_inj. lia.
  - intros H0. split.
    + rewrite getModalId_untagged by exact Hn'. simpl. unfold s. by rewrite H0.
    + exact Hs.
  - reflexivity.
Qed.

(** X14 on the first two components of a run. *)
Lemma getModalId_tags_component_once_witness :
  (symModalId initialWorld !! 7 = None ∧ symModalId initialWorld !! 8 = None
   ∧ 7 ≠ 8 ∧ (uidSeed initialWorld < MAX_EXACT)%N)
  ∧ fst (getModalId (ByComponent 7) initialWorld) = Ok (uid_string 0).
Proof.
  assert (symModalId initialWorld !! 7 = None) as H1 by reflexivity.
  assert (symModalId initialWorld !! 8 = None) as H2 by reflexivity.
  assert (7 ≠ 8) as H3 by lia.
  assert (uidSeed initialWorld < MAX_EXACT)%N as H4 by (vm_compute; reflexivity).
  split; [by split_and! |].
  destruct (getModalId_tags_component_once 7 8 initialWorld H1 H2 H3 H4) as (A & _).
  exact A.
Defined.

(* ================================================================== *)
(** ** Which modals count as open *)
(* ================================================================== *)




(* ================================================================== *)
(** ** What the provider renders *)
(* ================================================================== *)






(* ================================================================== *)
(** ** [updateData] on a modal that is no longer open *)
(* ================================================================== *)




(* ================================================================== *)
(** ** The hook's [open] and [close] *)
(* ================================================================== *)

(** X19.  The promise the hook's [open(data)] returns is the one its
    [close(result)] fulfils: after [open] and then [close(result)] the
    promise holds [result], [dismiss()] in place of [close] leaves it
    holding [undefined], and nothing called later, another [close] with
    another value included, changes what it holds. *)
Theorem hook_open_close_round_trip id d v ops w
    (Hd : dispatchFn w = ProviderDispatch) :
  let p := length (promises w) in
  let w1 := exec (useModal.open_ id d) w in
  fst (useModal.open_ id d w) = Ok p
  ∧ is_pending w1 p
  ∧ settled_with (exec (useModal.close id v) w1) p = Some v
  ∧ settled_with (exec (useModal.dismiss id) w1) p = Some VUndefined
  ∧ settled_with (run ops (exec (useModal.close id v) w1)) p = Some v
  ∧ (∀ v', settled_with (exec (useModal.close id v') (exec (useModal.close id v) w1)) p
           = Some v).
Proof.
  intros p w1.
  pose proof (hook_open_unfold id d w Hd) as Ho.
  assert (w1 = exec (openModal (ById id) (mkConfig d None None None)) w) as E1
    by (unfold w1, exec; by rewrite Ho).
  pose proof (openModal_spec (ById id) (mkConfig d None None None) w Hd)
    as (_ & Hps & Hmc & _ & _ & _ & _ & _ & Hd1).
  change (effective_id (ById id) (mkConfig d None None None) w) with id in *.
  rewrite <- E1 in Hps, Hmc, Hd1. fold p in Hmc.
  assert (promises w1 !! p = Some None) as Hpend.
  { rewrite Hps. by apply list_lookup_middle. }
  assert (modalCallbacks w1 !! id = Some p) as Hm by (rewrite Hmc; apply lookup_insert_eq).
  assert (∀ u, fulfilled p u (exec (useModal.close id u) w1)) as Hclose.
  { intros u. destruct (hook_close_unfold id u w1) as [E _]. cbv zeta in E. rewrite E.
    set (w0 := set_modalCallbacks (delete id)
                 (set_promises (resolve_opt (modalCallbacks w1 !! id) u) w1)).
    assert (fulfilled p u w0) as F0.
    { unfold fulfilled, w0. simpl. rewrite Hm. apply resolve_opt_hits. by left. }
    apply (fulfilled_run_op p u (OCloseModal (ById id))) in F0.
    cbn [run_op] in F0. unfold void in F0. rewrite exec_bind in F0.
    by destruct (fst (closeModal (ById id) w0)). }
  split_and!.
  - by rewrite Ho.
  - exact Hpend.
  - apply fulfilled_settled_with, Hclose.
  - apply fulfilled_settled_with. apply (Hclose VUndefined).
  - apply fulfilled_settled_with, fulfilled_run, Hclose.
  - intros v'. apply fulfilled_settled_with.
    apply (fulfilled_run p v [OHookClose id v']), Hclose.
Qed.

(** X19 on a fresh provider. *)
Lemma hook_open_close_round_trip_witness :
  let w := exec setDispatch initialWorld in
  dispatchFn w = ProviderDispatch
  ∧ settled_with
      (exec (useModal.close "m" (VStr "saved")) (exec (useModal.open_ "m" None) w))
      (length (promises w))
    = Some (VStr "saved").
Proof.
  intros w.
  assert (dispatchFn w = ProviderDispatch) as H1 by (vm_compute; reflexivity).
  split; [exact H1 |].
  destruct (hook_open_close_round_trip "m" None (VStr "saved") [] w H1) as (_ & _ & A & _).
  exact A.
Defined.

(* ================================================================== *)
(** ** Dropping the callbacks of an open modal *)
(* ================================================================== *)


